(** * Lighthouse treemap viewer: [lighthouse-treemap/app/src/main.js]

    A shallow embedding of the viewer's data handling: the validation of the
    options object, the cross-window message handler, the aggregation of root
    nodes into a synthetic root, the registration of nodes in the
    [nodeToRootNodeMap], the byte total of the "All" view mode and the
    colouring pass.

    JavaScript objects live in a store and are handled through references,
    so that object identity (the keys of the [WeakMap]), sharing and
    in-place mutation can be expressed.  Numbers are byte counts and are
    modelled as [Z]. *)

From stdpp Require Import base option list gmap strings pretty.
From Stdlib Require Import ZArith Lia.

Local Open Scope string_scope.
Local Open Scope list_scope.
Local Open Scope Z_scope.
Set Warnings "-register-all".

(** ** Exceptions *)

(** What a statement can throw: the built-in [TypeError] (property access on
    [undefined] or [null], iteration over a non-iterable, calling [map] on
    [undefined]), the built-in [RangeError] (call stack exhausted), and
    [new Error(message)]. *)
Inductive JsError : Type :=
  | TypeError
  | RangeError
  | Error (message : string).

Inductive Result (A : Type) : Type :=
  | Ok (a : A)
  | Throw (e : JsError).
Arguments Ok {A} a.
Arguments Throw {A} e.

#[global] Instance Result_ret : MRet Result := @Ok.
#[global] Instance Result_bind : MBind Result := λ A B f r,
  match r with
  | Ok a => f a
  | Throw e => Throw e
  end.

#[global] Instance JsError_eq_dec : EqDecision JsError.
Proof. solve_decision. Defined.

(** ** Values of the options object *)

(** The options object arrives as parsed JSON (from [window.__TREEMAP_OPTIONS],
    from [debug.json], or through [postMessage]).  An array is represented by
    the references it holds: the only array the viewer reads from the options
    is [treemapData], whose elements are root-node containers of the store. *)
Definition ref := positive.

Inductive JsVal : Type :=
  | JUndefined
  | JNull
  | JBool (b : bool)
  | JNum (z : Z)
  | JStr (s : string)
  | JArr (elems : list ref)
  | JObj (fields : list (string * JsVal)).

(** [!!v] of JavaScript: [undefined], [null], [false], [0] and the empty
    string are falsy, every object and array is truthy. *)
Definition truthy (v : JsVal) : bool :=
  match v with
  | JUndefined | JNull => false
  | JBool b => b
  | JNum z => negb (Z.eqb z 0)
  | JStr s => negb (String.eqb s "")
  | JArr _ | JObj _ => true
  end.

Fixpoint lookupField (k : string) (fields : list (string * JsVal)) : JsVal :=
  match fields with
  | [] => JUndefined
  | (k', v) :: rest => if String.eqb k k' then v else lookupField k rest
  end.

(** [v.k] (or [v[k]]): a [TypeError] on [undefined] and [null]; [undefined]
    for a property that an object does not have, and for the properties read
    here on a primitive or an array. *)
Definition getProp (v : JsVal) (k : string) : Result JsVal :=
  match v with
  | JUndefined | JNull => Throw TypeError
  | JObj fields => Ok (lookupField k fields)
  | _ => Ok JUndefined
  end.

(** Whether an object value carries property [k] at all. *)
Definition hasField (v : JsVal) (k : string) : bool :=
  match v with
  | JObj fields => bool_decide (k ∈ fields.*1)
  | _ => false
  end.

(** ** The constructor's validation step (main.js, lines 21-28) *)

Definition missingData : JsError := Error "missing script-treemap-data".

Definition treemapDebugDataOf (options : JsVal) : Result JsVal :=
  lhr ← getProp options "lhr";
  audits ← getProp lhr "audits";
  audit ← getProp audits "script-treemap-data";
  getProp audit "details".

Definition constructor_treemapData (options : JsVal) : Result JsVal :=
  treemapDebugData ← treemapDebugDataOf options;
  if negb (truthy treemapDebugData) then Throw missingData
  else
    treemapData ← getProp treemapDebugData "treemapData";
    if negb (truthy treemapData) then Throw missingData
    else Ok treemapData.

(** The two conditions under which the data is said to be missing: the audit
    details are missing (the reads do not reach a value, or reach [undefined]
    or [null]), and the details do not have a [treemapData] property. *)
Definition detailsMissing (options : JsVal) : bool :=
  match treemapDebugDataOf options with
  | Ok JUndefined | Ok JNull | Throw _ => true
  | Ok _ => false
  end.

Definition lacksTreemapData (options : JsVal) : bool :=
  match treemapDebugDataOf options with
  | Ok d => negb (hasField d "treemapData")
  | Throw _ => false
  end.

(** The two tests of the guard: the details are falsy (or the reads do not
    reach them), the [treemapData] of the details is falsy. *)
Definition detailsFalsy (options : JsVal) : bool :=
  match treemapDebugDataOf options with
  | Ok d => negb (truthy d)
  | Throw _ => true
  end.

Definition treemapDataFalsy (options : JsVal) : bool :=
  match treemapDebugDataOf options with
  | Ok d => match getProp d "treemapData" with
            | Ok v => negb (truthy v)
            | Throw _ => false
            end
  | Throw _ => false
  end.

(** An options object whose [script-treemap-data] audit has the given
    details. *)
Definition optionsWithDetails (details : JsVal) : JsVal :=
  JObj [("lhr",
         JObj [("requestedUrl", JStr "https://example.com/");
               ("audits",
                JObj [("script-treemap-data",
                       JObj [("id", JStr "script-treemap-data");
                             ("details", details)])])])].

Definition debugDataWith (treemapData : JsVal) : JsVal :=
  JObj [("type", JStr "debugdata"); ("treemapData", treemapData)].

(** ** The message handler (main.js, lines 295-306) *)

(** A window reference as held by [e.source] and [self.opener]; [None] is
    [null]. *)
Definition WindowRef := option nat.

Record MessageEvent := {
  source : WindowRef;
  data : JsVal;
}.

(** What one run of the listener does: it calls [init(options)], or it
    returns without calling it, or destructuring [e.data] throws. *)
Inductive HandlerOutcome : Type :=
  | CallsInit (options : JsVal)
  | Returns
  | Throws (e : JsError).

Definition onMessage (opener : WindowRef) (e : MessageEvent) : HandlerOutcome :=
  if negb (bool_decide (source e = opener)) then Returns
  else
    let options := data e in
    match getProp options "lhr" with
    | Throw err => Throws err
    | Ok lhr =>
        if negb (truthy lhr) then Returns
        else
          match getProp lhr "requestedUrl" with
          | Throw err => Throws err
          | Ok documentUrl =>
              if negb (truthy documentUrl) then Returns
              else CallsInit options
          end
    end.

(** ** The store *)

(** [Node] and [RootNodeContainer] of
    [lighthouse-core/audits/script-treemap-data], the types behind
    [Treemap.Node] and [Treemap.RootNodeContainer] of [types/treemap.d.ts]:
    a name, the byte counts, the optional [unusedBytes] and the optional
    array of children.  [domElement] is the [dom] property, the element that
    webtreemap caches on a node it has rendered (the name [dom] is taken by
    the domain of a finite map). *)
Record Node := {
  name : string;
  resourceBytes : Z;
  unusedBytes : option Z;
  children : option (list ref);
  domElement : option ref;
}.

Record RootNodeContainer := {
  containerName : string;
  node : ref;
}.

(** A CSS colour value: a keyword such as [white], or the value built by
    [Util.hsl(hue, sat, lum)], which is kept symbolic ([util.js] is not among
    the sources). *)
Inductive Css (Hue : Type) : Type :=
  | keyword (s : string)
  | hsl (hue : Hue) (sat lum : Z).
Arguments keyword {Hue} s.
Arguments hsl {Hue} hue sat lum.

Record Style (Hue : Type) := {
  backgroundColor : Css Hue;
  color : Css Hue;
}.
Arguments backgroundColor {Hue} _.
Arguments color {Hue} _.

Section Viewer.

Context {Hue : Type}.

(** The objects the viewer works on: nodes, containers, and the style of the
    DOM elements attached to nodes. *)
Record Store := {
  nodes : gmap ref Node;
  containers : gmap ref RootNodeContainer;
  styles : gmap ref (Style Hue);
}.

Definition readNode (σ : Store) (l : ref) : Result Node :=
  match nodes σ !! l with
  | Some n => Ok n
  | None => Throw TypeError
  end.

Definition readContainer (σ : Store) (l : ref) : Result RootNodeContainer :=
  match containers σ !! l with
  | Some c => Ok c
  | None => Throw TypeError
  end.

(** An object literal that evaluates to a node: a new object, at a reference
    no object of the store has. *)
Definition allocNode (σ : Store) (n : Node) : ref * Store :=
  let l := fresh (dom (nodes σ)) in
  (l, {| nodes := <[l := n]> (nodes σ);
         containers := containers σ;
         styles := styles σ |}).

Definition setStyle (σ : Store) (el : ref) (st : Style Hue) : Store :=
  {| nodes := nodes σ;
     containers := containers σ;
     styles := <[el := st]> (styles σ) |}.

(** [for (const x of xs) body], with the state the body works on threaded
    through and an exception ending the loop. *)
Fixpoint forEachM {A T : Type} (body : A → T → Result T) (xs : list A) (s : T)
    : Result T :=
  match xs with
  | [] => Ok s
  | x :: rest => s' ← body x s; forEachM body rest s'
  end.

(** Modelled from the spec: [Util.dfs] ([util.js] is not among the sources),
    the depth-first walk: the callback runs on the node, then the walk
    descends into each child in order.  The callback may change the store;
    [node.children] is read after it has run.  A call stack deeper than
    [fuel] frames is a [RangeError]. *)
Fixpoint dfs {T : Type} (fuel : nat) (fn : ref → Store * T → Result (Store * T))
    (l : ref) (w : Store * T) : Result (Store * T) :=
  match fuel with
  | O => Throw RangeError
  | S fuel' =>
      w1 ← fn l w;
      n ← readNode w1.1 l;
      match children n with
      | None => Ok w1
      | Some cs => forEachM (dfs fuel' fn) cs w1
      end
  end.

(** ** Stable hasher *)

(** Modelled from the spec: [Util.stableHasher] ([util.js] is not among the
    sources).  The closure keeps a mapping from key to an index into the
    fixed palette; an unseen key takes the next index, in first-seen order;
    once the palette is exhausted an unseen key gets no value. *)
Record Hasher := {
  palette : list Hue;
  assigned : gmap string nat;
}.

Definition stableHasher (originalValues : list Hue) : Hasher :=
  {| palette := originalValues; assigned := ∅ |}.

(** One call [getHue(key)] of the closure: the value ([None] is [undefined])
    and the closure's state after the call. *)
Definition callHasher (key : string) (h : Hasher) : option Hue * Hasher :=
  match assigned h !! key with
  | Some i => (palette h !! i, h)
  | None =>
      let i := size (assigned h) in
      if decide (i < length (palette h))%nat
      then (palette h !! i,
            {| palette := palette h; assigned := <[key := i]> (assigned h) |})
      else (None, h)
  end.

(** The values a sequence of calls returns, and the final state. *)
Fixpoint callsHasher (keys : list string) (h : Hasher)
    : list (option Hue) * Hasher :=
  match keys with
  | [] => ([], h)
  | k :: rest =>
      let '(v, h1) := callHasher k h in
      let '(vs, h2) := callsHasher rest h1 in
      (v :: vs, h2)
  end.



(** A later state of the same closure: the palette is the same, no key has
    lost or changed its index, and nothing was added once the palette was
    exhausted. *)
Definition hasherLe (h h' : Hasher) : Prop :=
  palette h' = palette h ∧ assigned h ⊆ assigned h' ∧
  ((length (palette h) ≤ size (assigned h))%nat → assigned h' = assigned h).


(** ** The viewer *)

(** [Util.COLOR_HUES] is a constant of [util.js]; the viewer is parameterised
    by it. *)
Variable COLOR_HUES : list Hue.

Record TreemapViewer := {
  nodeToRootNodeMap : gmap ref ref;
  rootNodesByGroup : list (string * list ref);
  currentRootNode : option ref;
  documentUrl : string;
  getHue : Hasher;
}.

(** [this.rootNodesByGroup[group]]; [None] is [undefined]. *)
Fixpoint lookupGroup (group : string) (groups : list (string * list ref))
    : option (list ref) :=
  match groups with
  | [] => None
  | (g, rootNodes) :: rest =>
      if decide (group = g) then Some rootNodes else lookupGroup group rest
  end.

(** *** constructor, lines 30-48 *)

(** The fields of a new viewer.  [scriptRootNodes] is the array the
    validation step has let through and [requestedUrl] is
    [options.lhr.requestedUrl].  The calls that end the constructor
    ([createHeader], [show], [initListeners]) work on the document; what
    [show] does to the viewer is [show_currentRootNode] below. *)
Definition registerRootNode (fuel : nat) (rootNode : ref)
    (w : Store * gmap ref ref) : Result (Store * gmap ref ref) :=
  c ← readContainer w.1 rootNode;
  dfs fuel (λ l w', Ok (w'.1, <[l := rootNode]> w'.2)) (node c) w.

Definition constructor_fields (fuel : nat) (scriptRootNodes : list ref)
    (requestedUrl : string) (σ : Store) : Result (Store * TreemapViewer) :=
  let groups := [("scripts", scriptRootNodes)] in
  w ← forEachM (λ rootNodes, forEachM (registerRootNode fuel) rootNodes)
        groups.*2 (σ, ∅);
  Ok (w.1, {| nodeToRootNodeMap := w.2;
              rootNodesByGroup := groups;
              currentRootNode := None;
              documentUrl := requestedUrl;
              getHue := stableHasher COLOR_HUES |}).

(** *** createRootNodeForGroup, lines 103-127 *)

(** The callback of [rootNodes.map]. *)
Definition wrapRootNode (group : string) (rootNode : ref) (σ : Store)
    : Result (ref * Store) :=
  c ← readContainer σ rootNode;
  n ← readNode σ (node c);
  if bool_decide (group = "scripts") && bool_decide (is_Some (children n))
  then Ok (allocNode σ {| name := containerName c;
                          children := Some [node c];
                          resourceBytes := resourceBytes n;
                          unusedBytes := unusedBytes n;
                          domElement := None |})
  else Ok (node c, σ).

Fixpoint mapRootNodes (group : string) (rootNodes : list ref) (σ : Store)
    : Result (list ref * Store) :=
  match rootNodes with
  | [] => Ok ([], σ)
  | rootNode :: rest =>
      r ← wrapRootNode group rootNode σ;
      rs ← mapRootNodes group rest r.2;
      Ok (r.1 :: rs.1, rs.2)
  end.

(** A JavaScript number is an IEEE 754 binary64, and [+] on numbers is the
    exact sum rounded to the nearest binary64, a tie going to the one whose
    last binary place is even.  Byte counts are integers: the model keeps
    the integer-valued numbers as [Z], and [roundDouble z] is the binary64
    nearest to the integer [z].  That is [z] itself up to 2^53 in magnitude;
    beyond, a number has 53 significant binary places, so it is a multiple of
    [ulp], the power of two 52 places below its leading one.  (A magnitude
    of 2^1024 or more is [Infinity] in the code; the model has no such number
    and nothing below is about sums of that size.) *)
Definition roundDouble (z : Z) : Z :=
  let a := Z.abs z in
  if a <=? 2 ^ 53 then z
  else
    let ulp := 2 ^ (Z.log2 a - 52) in
    let q := a / ulp in
    let r := a mod ulp in
    let q' := if 2 * r <? ulp then q
              else if ulp <? 2 * r then q + 1
              else if Z.even q then q else q + 1 in
    Z.sgn z * (q' * ulp).

(** [x + y] on numbers. *)
Definition jsAdd (x y : Z) : Z := roundDouble (x + y).

(** [xs.reduce((acc, cur) => f(acc, cur), init)] over an array of nodes. *)
Fixpoint reduce (f : Z → Node → Z) (σ : Store) (xs : list ref) (acc : Z)
    : Result Z :=
  match xs with
  | [] => Ok acc
  | cur :: rest => n ← readNode σ cur; reduce f σ rest (f acc n)
  end.

Definition createRootNodeForGroup (this : TreemapViewer) (group : string)
    (σ : Store) : Result (ref * Store) :=
  match lookupGroup group (rootNodesByGroup this) with
  | None => Throw TypeError
  | Some rootNodes =>
      r ← mapRootNodes group rootNodes σ;
      let children := r.1 in
      rb ← reduce (λ acc cur, jsAdd (resourceBytes cur) acc) r.2 children 0;
      ub ← reduce (λ acc cur, jsAdd (default 0 (unusedBytes cur)) acc)
             r.2 children 0;
      Ok (allocNode r.2 {| name := documentUrl this;
                           resourceBytes := rb;
                           unusedBytes := Some ub;
                           children := Some children;
                           domElement := None |})
  end.

(** *** renderViewModeOptions, lines 238-247 *)

(** The callback of the walk: only leaf nodes add to [bytes]. *)
Definition addLeafBytes (l : ref) (w : Store * Z) : Result (Store * Z) :=
  n ← readNode w.1 l;
  if bool_decide (is_Some (children n)) then Ok w
  else Ok (w.1, jsAdd w.2 (resourceBytes n)).

(** The body of the loop over the containers. *)
Definition addRootNodeBytes (fuel : nat) (rootNode : ref) (w : Store * Z)
    : Result (Store * Z) :=
  c ← readContainer w.1 rootNode;
  dfs fuel addLeafBytes (node c) w.

(** The view modes made: the label and the byte count handed to
    [makeViewMode]. *)
Definition renderViewModeOptions (fuel : nat) (rootNodes : list ref) (σ : Store)
    : Result (list (string * Z)) :=
  w ← forEachM (addRootNodeBytes fuel) rootNodes (σ, 0);
  Ok [("All", w.2)].

(** *** updateColors, lines 185-211 *)

Definition hueKeyOf (this : TreemapViewer) (σ : Store) (l : ref)
    : Result string :=
  match nodeToRootNodeMap this !! l with
  | Some rootNode => c ← readContainer σ rootNode; Ok (containerName c)
  | None => n ← readNode σ l; Ok (name n)
  end.

Definition colorsOf (hue : option Hue) : Style Hue :=
  match hue with
  | Some h =>
      let sat := 60 in
      let lum := 90 in
      {| backgroundColor := hsl h sat lum;
         color := if 50 <? lum then keyword "black" else keyword "white" |}
  | None =>
      {| backgroundColor := keyword "white"; color := keyword "black" |}
  end.

(** The callback of the walk. *)
Definition paintNode (this : TreemapViewer) (l : ref) (w : Store * Hasher)
    : Result (Store * Hasher) :=
  hueKey ← hueKeyOf this w.1 l;
  let r := callHasher hueKey w.2 in
  n ← readNode w.1 l;
  match domElement n with
  | Some el => Ok (setStyle w.1 el (colorsOf r.1), r.2)
  | None => Ok (w.1, r.2)
  end.

Definition updateColors (fuel : nat) (this : TreemapViewer) (σ : Store)
    : Result (Store * TreemapViewer) :=
  match currentRootNode this with
  | None => Throw TypeError
  | Some root =>
      w ← dfs fuel (paintNode this) root (σ, getHue this);
      Ok (w.1, {| nodeToRootNodeMap := nodeToRootNodeMap this;
                  rootNodesByGroup := rootNodesByGroup this;
                  currentRootNode := currentRootNode this;
                  documentUrl := documentUrl this;
                  getHue := w.2 |})
  end.

(** ** Shape of the data *)

(** The nodes below [l] in the order in which the walk visits them, for a
    tree whose depth is at most [fuel]. *)
Fixpoint preorder (fuel : nat) (h : gmap ref Node) (l : ref) : list ref :=
  match fuel with
  | O => []
  | S fuel' =>
      l :: match h !! l with
           | Some n =>
               match children n with
               | Some cs => flat_map (preorder fuel' h) cs
               | None => []
               end
           | None => []
           end
  end.

(** [l] is the root of a finite tree of depth at most [fuel]: every
    reference below it is an object of the store (JSON-shaped data has no
    cycles). *)
Fixpoint isTree (fuel : nat) (h : gmap ref Node) (l : ref) : bool :=
  match fuel with
  | O => false
  | S fuel' =>
      match h !! l with
      | Some n =>
          match children n with
          | Some cs => forallb (isTree fuel' h) cs
          | None => true
          end
      | None => false
      end
  end.

Definition sumZ (zs : list Z) : Z := foldr Z.add 0 zs.

(** The sum as [reduce] computes it: from [acc], one addition of numbers per
    element, in the order of the array. *)
Definition jsSumFrom (acc : Z) (zs : list Z) : Z :=
  foldl (λ acc z, jsAdd z acc) acc zs.

Definition jsSum (zs : list Z) : Z := jsSumFrom 0 zs.

(** Byte counts for which the additions of the code are exact: non-negative
    integers with a total of at most 2^53. *)
Definition safeBytes (zs : list Z) : Prop :=
  Forall (λ z, 0 ≤ z) zs ∧ sumZ zs ≤ 2 ^ 53.

(** The [resourceBytes] of the object at [l] (0 if there is none). *)
Definition bytesAt (h : gmap ref Node) (l : ref) : Z :=
  match h !! l with
  | Some n => resourceBytes n
  | None => 0
  end.

(** Below [l], every node that has a [children] property has as its
    [resourceBytes] the sum of the [resourceBytes] of its children. *)
Fixpoint sumsConsistent (fuel : nat) (h : gmap ref Node) (l : ref) : bool :=
  match fuel with
  | O => false
  | S fuel' =>
      match h !! l with
      | Some n =>
          match children n with
          | Some cs =>
              bool_decide (resourceBytes n = sumZ (bytesAt h <$> cs))
              && forallb (sumsConsistent fuel' h) cs
          | None => true
          end
      | None => false
      end
  end.

(** The node a root-node container of the store holds. *)
Definition rootNodeOf (σ : Store) (rootNode : ref) : option Node :=
  c ← containers σ !! rootNode; nodes σ !! node c.

(** The container at [rootNode] holds a tree of depth at most [fuel]. *)
Definition holdsTree (fuel : nat) (σ : Store) (rootNode : ref) : bool :=
  match containers σ !! rootNode with
  | Some c => isTree fuel (nodes σ) (node c)
  | None => false
  end.

Definition holdsConsistentTree (fuel : nat) (σ : Store) (rootNode : ref)
    : bool :=
  match containers σ !! rootNode with
  | Some c => sumsConsistent fuel (nodes σ) (node c)
  | None => false
  end.

(** The nodes of the tree the container at [rootNode] holds. *)
Definition nodesOfRootNode (fuel : nat) (σ : Store) (rootNode : ref)
    : list ref :=
  match containers σ !! rootNode with
  | Some c => preorder fuel (nodes σ) (node c)
  | None => []
  end.

(** What the node at [l] adds to the byte count of the "All" view mode: its
    [resourceBytes] when it has no [children] property, nothing otherwise. *)
Definition leafBytesAt (h : gmap ref Node) (l : ref) : Z :=
  match h !! l with
  | Some n => match children n with
              | Some _ => 0
              | None => resourceBytes n
              end
  | None => 0
  end.

(** [bytes] after the callback of [renderViewModeOptions] has run on the
    node at [l], and after it has run on a list of nodes in order. *)
Definition addLeafAt (h : gmap ref Node) (bytes : Z) (l : ref) : Z :=
  match h !! l with
  | Some n => match children n with
              | Some _ => bytes
              | None => jsAdd bytes (resourceBytes n)
              end
  | None => bytes
  end.

Definition leafTotalFrom (h : gmap ref Node) (bytes : Z) (ls : list ref) : Z :=
  foldl (addLeafAt h) bytes ls.

(** All the nodes of the trees of a sequence of containers. *)
Definition allNodes (fuel : nat) (σ : Store) (rootNodes : list ref) : list ref :=
  flat_map (nodesOfRootNode fuel σ) rootNodes.

(** The map after [set(l, rootNode)] for each [l] of a list, and after the
    registration of the trees of a sequence of containers. *)
Definition setAll (rootNode : ref) (ls : list ref) (m : gmap ref ref)
    : gmap ref ref :=
  foldl (λ m l, <[l := rootNode]> m) m ls.

Definition registered (fuel : nat) (σ : Store) (rootNodes : list ref)
    (m : gmap ref ref) : gmap ref ref :=
  foldl (λ m rootNode, setAll rootNode (nodesOfRootNode fuel σ rootNode) m)
        m rootNodes.

(** The element attached to the node at [l], if any. *)
Definition elementOf (σ : Store) (l : ref) : option ref :=
  n ← nodes σ !! l; domElement n.



(** The wrapper object [createRootNodeForGroup] builds for a container [c]
    whose node is [n]. *)
Definition wrapperOf (c : RootNodeContainer) (n : Node) : Node :=
  {| name := containerName c;
     children := Some [node c];
     resourceBytes := resourceBytes n;
     unusedBytes := unusedBytes n;
     domElement := None |}.

(** [σ'] has every object of [σ], unchanged, and maybe new nodes. *)
Definition extends (σ σ' : Store) : Prop :=
  nodes σ ⊆ nodes σ' ∧ containers σ' = containers σ ∧ styles σ' = styles σ.

(** What [rootNodes.map] makes of the container at [rootNode]: the
    container's node itself when that has no [children] property, and else a
    new wrapper object. *)
Definition childOf (σ σ' : Store) (rootNode child : ref) : Prop :=
  ∃ c n, containers σ !! rootNode = Some c ∧ nodes σ !! node c = Some n ∧
    match children n with
    | None => child = node c
    | Some _ =>
        (child ∉ dom (nodes σ)) ∧ (nodes σ' !! child = Some (wrapperOf c n))
    end.

End Viewer.

(** ** Example data *)

Definition leaf (name : string) (bytes : Z) : Node :=
  {| name := name; resourceBytes := bytes; unusedBytes := None;
     children := None; domElement := None |}.

(** Three bundles of 10, 20 and 5 bytes; the second has two modules. *)
Definition exampleStore : @Store nat :=
  {| nodes :=
       list_to_map
         [(1%positive, leaf "a.js" 10);
          (2%positive, {| name := "b.js"; resourceBytes := 20;
                          unusedBytes := Some 3;
                          children := Some [3%positive; 4%positive];
                          domElement := None |});
          (3%positive, leaf "b/x.js" 12);
          (4%positive, leaf "b/y.js" 8);
          (5%positive, leaf "c.js" 5)];
     containers :=
       list_to_map
         [(1%positive, {| containerName := "https://example.com/a.js";
                          node := 1%positive |});
          (2%positive, {| containerName := "https://example.com/b.js";
                          node := 2%positive |});
          (3%positive, {| containerName := "https://example.com/c.js";
                          node := 5%positive |})];
     styles := ∅ |}.

Definition exampleRootNodes : list ref := [1%positive; 2%positive; 3%positive].

(** The nodes the three containers hold. *)
Definition exampleNodes : list Node :=
  [leaf "a.js" 10;
   {| name := "b.js"; resourceBytes := 20; unusedBytes := Some 3;
      children := Some [3%positive; 4%positive]; domElement := None |};
   leaf "c.js" 5].

Definition examplePalette : list nat := [4%nat; 340%nat].

Definition exampleViewer : @TreemapViewer nat :=
  {| nodeToRootNodeMap :=
       list_to_map
         [(1%positive, 1%positive); (2%positive, 2%positive);
          (3%positive, 2%positive); (4%positive, 2%positive);
          (5%positive, 3%positive)];
     rootNodesByGroup := [("scripts", exampleRootNodes)];
     currentRootNode := None;
     documentUrl := "https://example.com/";
     getHue := stableHasher examplePalette |}.

(** A viewer for a report without scripts. *)
Definition emptyViewer : @TreemapViewer nat :=
  {| nodeToRootNodeMap := ∅;
     rootNodesByGroup := [("scripts", [])];
     currentRootNode := None;
     documentUrl := "https://example.com/";
     getHue := stableHasher examplePalette |}.

Definition emptyStore : @Store nat :=
  {| nodes := ∅; containers := ∅; styles := ∅ |}.

(** The example after [show]: the wrapper of the second bundle is object 6
    and the root is object 7; webtreemap has sorted the children by size and
    has attached an element to every node. *)
Definition rendered (n : Node) (children : option (list ref)) (el : ref) : Node :=
  {| name := name n; resourceBytes := resourceBytes n;
     unusedBytes := unusedBytes n; children := children;
     domElement := Some el |}.

Definition exampleRendered : @Store nat :=
  {| nodes :=
       list_to_map
         [(1%positive, rendered (leaf "a.js" 10) None 101%positive);
          (2%positive,
           {| name := "b.js"; resourceBytes := 20; unusedBytes := Some 3;
              children := Some [3%positive; 4%positive];
              domElement := Some 102%positive |});
          (3%positive, rendered (leaf "b/x.js" 12) None 103%positive);
          (4%positive, rendered (leaf "b/y.js" 8) None 104%positive);
          (5%positive, rendered (leaf "c.js" 5) None 105%positive);
          (6%positive,
           {| name := "https://example.com/b.js"; resourceBytes := 20;
              unusedBytes := Some 3; children := Some [2%positive];
              domElement := Some 106%positive |});
          (7%positive,
           {| name := "https://example.com/"; resourceBytes := 35;
              unusedBytes := Some 3;
              children := Some [6%positive; 1%positive; 5%positive];
              domElement := Some 107%positive |})];
     containers := containers exampleStore;
     styles := ∅ |}.

(** Two containers that hold one and the same node object. *)
Definition sharedStore : @Store nat :=
  {| nodes := {[ 1%positive := leaf "m.js" 4 ]};
     containers :=
       list_to_map
         [(1%positive, {| containerName := "first"; node := 1%positive |});
          (2%positive, {| containerName := "second"; node := 1%positive |})];
     styles := ∅ |}.

(** A viewer with a second group, as the later revisions of the viewer
    have. *)
Definition twoGroupViewer : @TreemapViewer nat :=
  {| nodeToRootNodeMap := ∅;
     rootNodesByGroup :=
       [("scripts", exampleRootNodes); ("other", [2%positive])];
     currentRootNode := None;
     documentUrl := "https://example.com/";
     getHue := stableHasher examplePalette |}.

(** The viewer of the example once [show] has run: the root is object 7. *)
Definition exampleShownViewer : @TreemapViewer nat :=
  {| nodeToRootNodeMap := nodeToRootNodeMap exampleViewer;
     rootNodesByGroup := rootNodesByGroup exampleViewer;
     currentRootNode := Some 7%positive;
     documentUrl := documentUrl exampleViewer;
     getHue := getHue exampleViewer |}.

(** Two bundles of 2^53 bytes and of 1 byte: their sum is not a number. *)
Definition roundedStore : @Store nat :=
  {| nodes :=
       list_to_map
         [(1%positive, leaf "big.js" (2 ^ 53)); (2%positive, leaf "one.js" 1)];
     containers :=
       list_to_map
         [(1%positive, {| containerName := "https://example.com/big.js";
                          node := 1%positive |});
          (2%positive, {| containerName := "https://example.com/one.js";
                          node := 2%positive |})];
     styles := ∅ |}.


Definition twoContainerViewer : @TreemapViewer nat :=
  {| nodeToRootNodeMap := ∅;
     rootNodesByGroup := [("scripts", [1%positive; 2%positive])];
     currentRootNode := None;
     documentUrl := "https://example.com/";
     getHue := stableHasher examplePalette |}.

(** One bundle whose node has a [children] property, an empty array: the
    node has no children. *)
Definition emptyChildrenStore : @Store nat :=
  {| nodes := {[ 1%positive :=
                 {| name := "a.js"; resourceBytes := 7; unusedBytes := None;
                    children := Some []; domElement := None |} ]};
     containers := {[ 1%positive :=
                      {| containerName := "https://example.com/a.js";
                         node := 1%positive |} ]};
     styles := ∅ |}.

Definition oneContainerViewer : @TreemapViewer nat :=
  {| nodeToRootNodeMap := ∅;
     rootNodesByGroup := [("scripts", [1%positive])];
     currentRootNode := None;
     documentUrl := "https://example.com/";
     getHue := stableHasher examplePalette |}.


(** ** More of the viewer *)

Section ViewerMore.

Context {Hue : Type}.

(** *** findRootNode, lines 91-97 *)

(** The inner loop: the first container of the array whose name is [name];
    [None] when the loop ends without a [return]. *)
Fixpoint findByName (name : string) (σ : @Store Hue) (rootNodes : list ref)
    : Result (option ref) :=
  match rootNodes with
  | [] => Ok None
  | rootNode :: rest =>
      c ← readContainer σ rootNode;
      if decide (containerName c = name) then Ok (Some rootNode)
      else findByName name σ rest
  end.

(** The outer loop over [Object.values(this.rootNodesByGroup)]. *)
Fixpoint findInGroups (name : string) (σ : @Store Hue) (groups : list (list ref))
    : Result (option ref) :=
  match groups with
  | [] => Ok None
  | rootNodes :: rest =>
      found ← findByName name σ rootNodes;
      match found with
      | Some rootNode => Ok (Some rootNode)
      | None => findInGroups name σ rest
      end
  end.

(** [None] is the [undefined] of a function that ends without [return].
    The groups are taken in the order of the list, which is the order in
    which [Object.values] enumerates the properties of the object. *)
Definition findRootNode (this : @TreemapViewer Hue) (name : string)
    (σ : @Store Hue) : Result (option ref) :=
  findInGroups name σ (rootNodesByGroup this).*2.

(** What a search for [name] among containers [cs] at references
    [rootNodes] may return: the first container with that name, or nothing
    when there is none. *)
Definition firstNamed (name : string) (rootNodes : list ref)
    (cs : list RootNodeContainer) (found : option ref) : Prop :=
  match found with
  | Some rootNode =>
      ∃ i c, rootNodes !! i = Some rootNode ∧ cs !! i = Some c ∧
             containerName c = name ∧
             ∀ j c', (j < i)%nat → cs !! j = Some c' → containerName c' ≠ name
  | None => ∀ c, c ∈ cs → containerName c ≠ name
  end.

(** The containers of all groups, in the order of the two loops. *)
Definition allRootNodes (this : @TreemapViewer Hue) : list ref :=
  concat (rootNodesByGroup this).*2.

(** *** show, lines 129-144 *)

(** [z || 0] for a number [z]. *)
Definition orZero (z : Z) : Z := if Z.eqb z 0 then 0 else z.

(** A node after [delete node.dom]. *)
Definition withoutDom (n : Node) : Node :=
  {| name := name n; resourceBytes := resourceBytes n;
     unusedBytes := unusedBytes n; children := children n;
     domElement := None |}.

(** The callback of the walk of [show]: it removes [dom] and sets [size].
    The [size] properties of the nodes are kept in a map of their own, from
    the node to its [size]. *)
Definition prepareNode (l : ref) (w : @Store Hue * gmap ref Z)
    : Result (@Store Hue * gmap ref Z) :=
  n ← readNode w.1 l;
  Ok ({| nodes := <[l := withoutDom n]> (nodes w.1);
         containers := containers w.1;
         styles := styles w.1 |},
      <[l := orZero (resourceBytes n)]> w.2).

(** What [show] has made when it hands the tree to webtreemap: the store,
    the viewer with its new [currentRootNode], the view modes and the sizes
    of the nodes. *)
Record Shown := {
  shownStore : @Store Hue;
  shownViewer : @TreemapViewer Hue;
  viewModes : list (string * Z);
  sizes : gmap ref Z;
}.

(** [show] up to the walk that prepares the nodes (lines 130-144).  What
    follows ([webtreemap.sort], [render]) is the work of webtreemap, up to
    the call of [updateColors] that ends [render]. *)
Definition show_data (fuel : nat) (this : @TreemapViewer Hue)
    (sizes0 : gmap ref Z) (σ : @Store Hue) : Result Shown :=
  r ← createRootNodeForGroup this "scripts" σ;
  match lookupGroup "scripts" (rootNodesByGroup this) with
  | None => Throw TypeError
  | Some rootNodes =>
      modes ← renderViewModeOptions fuel rootNodes r.2;
      w ← dfs fuel prepareNode r.1 (r.2, sizes0);
      Ok {| shownStore := w.1;
            shownViewer :=
              {| nodeToRootNodeMap := nodeToRootNodeMap this;
                 rootNodesByGroup := rootNodesByGroup this;
                 currentRootNode := Some r.1;
                 documentUrl := documentUrl this;
                 getHue := getHue this |};
            viewModes := modes;
            sizes := w.2 |}
  end.

(** Two node objects with the same data: the name, the byte counts, and the
    children up to their order.  ([webtreemap.sort] sorts the [children]
    arrays in place and rendering attaches [dom]; [show] deletes [dom] and
    sets [size].) *)
Definition sameNode (n n' : Node) : Prop :=
  name n' = name n ∧ resourceBytes n' = resourceBytes n ∧
  unusedBytes n' = unusedBytes n ∧
  match children n, children n' with
  | Some cs, Some cs' => cs ≡ₚ cs'
  | None, None => True
  | _, _ => False
  end.

(** [σ'] has the containers of [σ] and every node of [σ], with the same
    data. *)
Definition sameData (σ σ' : @Store Hue) : Prop :=
  containers σ' = containers σ ∧
  ∀ x n, nodes σ !! x = Some n → ∃ n', nodes σ' !! x = Some n' ∧ sameNode n n'.

(** *** createHeader, lines 55-59 *)

(** [Util.formatBytes] is a function of [util.js], which is not among the
    sources; the header and the view modes are parameterised by it. *)
Variable formatBytes : Z → string.

(** The text of [.lh-header--url] and of [.lh-header--size]. *)
Definition createHeader (this : @TreemapViewer Hue) (σ : @Store Hue)
    : Result (@Store Hue * (string * string)) :=
  r ← createRootNodeForGroup this "scripts" σ;
  n ← readNode r.2 r.1;
  Ok (r.2, (documentUrl this, formatBytes (resourceBytes n))).

(** The text [makeViewMode] puts after the label (line 231). *)
Definition viewModeBytesText (bytes : Z) : string :=
  " (" +:+ formatBytes bytes +:+ ")".

(** *** The click listener, lines 66-71 *)

(** A mouse event: its target when that is an [HTMLElement]. *)
Record MouseEvent := {
  targetElement : option ref;
}.

(** [el.closest('.webtreemap-node')] depends on the document, which stays
    outside; it is a parameter. *)
Variable closest : ref → option ref.

Definition onClick (fuel : nat) (e : MouseEvent) (this : @TreemapViewer Hue)
    (σ : @Store Hue) : Result (@Store Hue * @TreemapViewer Hue) :=
  match targetElement e with
  | None => Ok (σ, this)
  | Some target =>
      match closest target with
      | None => Ok (σ, this)
      | Some nodeEl => updateColors fuel this σ
      end
  end.

(** *** The colours of a pass *)

(** The style [updateColors] writes for the node at [l] when the closure
    gives the hues [ρ], and the element it writes it to. *)
Definition paintedBy (this : @TreemapViewer Hue) (σ : @Store Hue)
    (ρ : string → option Hue) (l : ref) : option (ref * Style Hue) :=
  match elementOf σ l, hueKeyOf this σ l with
  | Some el, Ok key => Some (el, colorsOf (ρ key))
  | _, _ => None
  end.

(** The styles after the writes of a list of nodes, in order. *)
Definition paintAll (this : @TreemapViewer Hue) (σ : @Store Hue)
    (ρ : string → option Hue) (ls : list ref)
    (st : gmap ref (Style Hue)) : gmap ref (Style Hue) :=
  foldl (λ st l, match paintedBy this σ ρ l with
                 | Some (el, style) => <[el := style]> st
                 | None => st
                 end) st ls.

(** The last style a list of nodes writes to [el], if any of them has
    it. *)
Fixpoint lastWrite (this : @TreemapViewer Hue) (σ : @Store Hue)
    (ρ : string → option Hue) (el : ref) (ls : list ref)
    : option (Style Hue) :=
  match ls with
  | [] => None
  | l :: rest =>
      match lastWrite this σ ρ el rest with
      | Some style => Some style
      | None =>
          match paintedBy this σ ρ l with
          | Some (el', style) => if decide (el' = el) then Some style else None
          | None => None
          end
      end
  end.

End ViewerMore.

(** ** The listener of the later revisions (src/unnamed/part_000, lines
    300-313) *)

(** The later revisions of the file report data they do not accept. *)
Inductive HandlerOutcome' : Type :=
  | CallsInit' (options : JsVal)
  | ShowsError (message : string)
  | Returns'
  | Throws' (e : JsError).

Definition onMessage' (opener : WindowRef) (e : MessageEvent) : HandlerOutcome' :=
  if negb (bool_decide (source e = opener)) then Returns'
  else
    let options := data e in
    match getProp options "lhr" with
    | Throw err => Throws' err
    | Ok lhr =>
        if negb (truthy lhr) then ShowsError "Error: Invalid options"
        else
          match getProp lhr "requestedUrl" with
          | Throw err => Throws' err
          | Ok documentUrl =>
              if negb (truthy documentUrl)
              then ShowsError "Error: Invalid options"
              else CallsInit' options
          end
    end.

(** ** The locales of the i18n bundle (build/build-i18n-module.js, lines
    15-18) *)

(** A JavaScript string is a sequence of 16-bit code units. *)
Definition JsString := list N.

(** The code units of a string of ASCII characters. *)
Definition units (s : string) : JsString :=
  Ascii.N_of_ascii <$> String.list_ascii_of_string s.

(** [s.endsWith(searchString)]. *)
Definition endsWith (s searchString : JsString) : bool :=
  bool_decide (searchString `suffix_of` s).

(** [s.indexOf(pattern)]: the first position at which [pattern] occurs;
    [None] is -1. *)
Fixpoint indexOf (pattern s : JsString) : option nat :=
  if decide (pattern `prefix_of` s) then Some 0%nat
  else match s with
       | [] => None
       | _ :: rest => S <$> indexOf pattern rest
       end.

(** [s.replace(pattern, replacement)] for a pattern that is a string and a
    replacement without [$]: the first occurrence is replaced, and only
    that. *)
Fixpoint stringReplace (pattern replacement s : JsString) : JsString :=
  if decide (pattern `prefix_of` s) then replacement ++ drop (length pattern) s
  else match s with
       | [] => []
       | c :: rest => c :: stringReplace pattern replacement rest
       end.

(** [actualLocales], from the names [fs.readdirSync] has found in the
    directory of the locales. *)
Definition actualLocales (localeBasenames : list JsString) : list JsString :=
  (λ locale, stringReplace (units ".json") (units "") locale) <$>
  filter (λ basename, endsWith basename (units ".json")
                      && negb (endsWith basename (units ".ctc.json")))
         localeBasenames.

Definition exampleBasenames : list JsString :=
  [units "en-US.json"; units "en-US.ctc.json"; units "ar.json";
   units "README.md"].

Arguments allocNode : simpl never.

(** * Properties *)

(** ** Options and messages *)

Lemma lookupField_hasField (k : string) (fields : list (string * JsVal)) :
  lookupField k fields ≠ JUndefined → k ∈ fields.*1.
Proof.
  induction fields as [|[k' v] rest IH]; simpl; [done|].
  destruct (String.eqb_spec k k') as [->|Hne]; intros H.
  - apply list_elem_of_here.
  - apply list_elem_of_further, IH, H.
Qed.

Lemma truthy_prop_hasField (v w : JsVal) (k : string) :
  getProp v k = Ok w → truthy w = true → hasField v k = true.
Proof.
  destruct v; simpl; intros [= <-] Ht; try discriminate.
  apply bool_decide_eq_true, lookupField_hasField.
  intros E. rewrite E in Ht. discriminate.
Qed.

Lemma getProp_truthy_Ok (d : JsVal) (k : string) :
  truthy d = true → ∃ v, getProp d k = Ok v.
Proof. destruct d; simpl; intros; try discriminate; eauto. Qed.

Lemma getProp_lacking (d : JsVal) (k : string) :
  truthy d = true → hasField d k = false → getProp d k = Ok JUndefined.
Proof.
  destruct d; simpl; intros Ht Hf; try discriminate; try done.
  f_equal. destruct (lookupField k fields) eqn:E; try done;
    exfalso; apply bool_decide_eq_false in Hf; apply Hf, lookupField_hasField;
    rewrite E; done.
Qed.

(** C6, as amended.  The constructor throws on the validation step exactly
    when the audit details are missing or otherwise falsy, or their
    [treemapData] is missing or otherwise falsy; this is the case in
    particular when the details are missing or lack the property.  When the
    reads up to [.details] succeed, what is thrown is the
    [missing script-treemap-data] error.  For all other inputs the step does
    not throw and yields the [treemapData] value. *)
Theorem constructor_treemapData_throws_iff_falsy (options : JsVal) :
  ((∃ e, constructor_treemapData options = Throw e) ↔
     detailsFalsy options = true ∨ treemapDataFalsy options = true)
  ∧ (detailsMissing options = true ∨ lacksTreemapData options = true →
     ∃ e, constructor_treemapData options = Throw e)
  ∧ (∀ d e, treemapDebugDataOf options = Ok d →
            constructor_treemapData options = Throw e → e = missingData)
  ∧ (∀ d v, treemapDebugDataOf options = Ok d → truthy d = true →
            getProp d "treemapData" = Ok v → truthy v = true →
            constructor_treemapData options = Ok v).
Proof.
  unfold constructor_treemapData, detailsFalsy, treemapDataFalsy,
    detailsMissing, lacksTreemapData.
  destruct (treemapDebugDataOf options) as [d|e0] eqn:Hd; simpl.
  - destruct (truthy d) eqn:Htd; simpl.
    + destruct (getProp_truthy_Ok d "treemapData" Htd) as [v Hv].
      rewrite Hv. simpl.
      destruct (truthy v) eqn:Htv; simpl; split_and!.
      * split; [intros [e He]; discriminate|intros [H|H]; discriminate].
      * intros [H|H].
        -- destruct d; simpl in *; discriminate.
        -- apply negb_true_iff in H.
           rewrite (getProp_lacking d _ Htd H) in Hv.
           injection Hv as <-. discriminate.
      * intros d' e [= <-] He. discriminate.
      * intros d' v' [= <-] _ Hv' _. rewrite Hv in Hv'. by injection Hv' as <-.
      * split; intros _; eauto.
      * intros _. eauto.
      * intros d' e [= <-] [= <-]. done.
      * intros d' v' [= <-] _ Hv' H. rewrite Hv in Hv'.
        injection Hv' as <-. congruence.
    + split_and!.
      * split; intros _; eauto.
      * intros _. eauto.
      * intros d' e [= <-] [= <-]. done.
      * intros d' v' [= <-] H. congruence.
  - split_and!.
    + split; intros _; eauto.
    + intros _. eauto.
    + intros d' e H. discriminate.
    + intros d' v' H. discriminate.
Qed.

Lemma constructor_treemapData_throws_iff_falsy_witness :
  constructor_treemapData (optionsWithDetails (debugDataWith (JArr [1%positive])))
  = Ok (JArr [1%positive]).
Proof.
  apply (proj2 (proj2 (proj2 (constructor_treemapData_throws_iff_falsy
           (optionsWithDetails (debugDataWith (JArr [1%positive]))))))
           (debugDataWith (JArr [1%positive])));
    reflexivity.
Defined.

(** C6, as stated, fails: with [treemapData: false] the details are there
    and have the property, and the constructor throws all the same. *)
Lemma constructor_treemapData_falsy_present :
  ¬ ((∃ e, constructor_treemapData
             (optionsWithDetails (debugDataWith (JBool false))) = Throw e) ↔
     detailsMissing (optionsWithDetails (debugDataWith (JBool false))) = true ∨
     lacksTreemapData (optionsWithDetails (debugDataWith (JBool false))) = true).
Proof.
  intros [H _]. destruct H as [H|H].
  - exists missingData. reflexivity.
  - vm_compute in H. discriminate.
  - vm_compute in H. discriminate.
Qed.

(** When the audit entry itself is absent, reading [.details] fails before
    the guard is reached. *)
Lemma constructor_treemapData_no_audit :
  constructor_treemapData
    (JObj [("lhr", JObj [("requestedUrl", JStr "https://example.com/");
                         ("audits", JObj [])])])
  = Throw TypeError.
Proof. reflexivity. Qed.

(** C7.  The listener calls [init] exactly when the message's source is
    identical to the opener ([e.source === self.opener], which also holds
    when both are [null]), the data has a truthy [lhr] and that has a truthy
    [requestedUrl]; it then passes the data on unchanged.  In particular
    [init] is called only for data that contains an [lhr] with a
    [requestedUrl], and never for a message that fails one of the checks. *)
Theorem onMessage_calls_init_iff (opener : WindowRef) (e : MessageEvent)
    (options : JsVal) :
  onMessage opener e = CallsInit options ↔
    source e = opener ∧ options = data e ∧
    ∃ lhr documentUrl,
      getProp (data e) "lhr" = Ok lhr ∧ truthy lhr = true ∧
      getProp lhr "requestedUrl" = Ok documentUrl ∧
      truthy documentUrl = true ∧
      hasField (data e) "lhr" = true ∧ hasField lhr "requestedUrl" = true.
Proof.
  unfold onMessage. split.
  - case_bool_decide as Hs; simpl; [|discriminate].
    destruct (getProp (data e) "lhr") as [lhr|] eqn:Hl; [|discriminate].
    destruct (truthy lhr) eqn:Htl; simpl; [|discriminate].
    destruct (getProp lhr "requestedUrl") as [url|] eqn:Hu; [|discriminate].
    destruct (truthy url) eqn:Htu; simpl; [|discriminate].
    intros [= <-]. split; [done|]. split; [done|].
    exists lhr, url. eauto 10 using truthy_prop_hasField.
  - intros (Hs & -> & lhr & url & Hl & Htl & Hu & Htu & _).
    rewrite bool_decide_eq_true_2 by done. simpl.
    rewrite Hl, Htl. simpl. rewrite Hu, Htu. done.
Qed.

Lemma onMessage_calls_init_iff_witness :
  onMessage (Some 1%nat)
    {| source := Some 1%nat;
       data := optionsWithDetails (debugDataWith (JArr [1%positive])) |}
  = CallsInit (optionsWithDetails (debugDataWith (JArr [1%positive]))).
Proof.
  apply (proj2 (onMessage_calls_init_iff (Some 1%nat)
           {| source := Some 1%nat;
              data := optionsWithDetails (debugDataWith (JArr [1%positive])) |}
           (optionsWithDetails (debugDataWith (JArr [1%positive]))))).
  split; [reflexivity|]. split; [reflexivity|].
  eexists _, _. split; [reflexivity|]. split; [reflexivity|].
  split; [reflexivity|]. split; [reflexivity|]. split; vm_compute; reflexivity.
Defined.

(** A message from another window, or without a requested URL, is ignored;
    data that cannot be destructured makes the listener throw. *)
Example onMessage_ignored :
  onMessage (Some 1%nat)
    {| source := Some 2%nat;
       data := optionsWithDetails (debugDataWith (JArr [1%positive])) |}
  = Returns ∧
  onMessage (Some 1%nat)
    {| source := Some 1%nat; data := JObj [("lhr", JObj [])] |} = Returns ∧
  onMessage (Some 1%nat) {| source := Some 1%nat; data := JNull |}
  = Throws TypeError.
Proof. by split_and!. Qed.

(** C7, as stated, fails: in a page without an opener ([self.opener] is
    [null]) a message without a source window ([e.source] is [null]) passes
    the test of identity, and [init] is called although no opener window
    has sent the message. *)
Lemma onMessage_calls_init_without_opener :
  ¬ (∀ options,
       onMessage None
         {| source := None;
            data := optionsWithDetails (debugDataWith (JArr [1%positive])) |}
       = CallsInit options →
       ∃ window : nat,
         source {| source := None;
                   data := optionsWithDetails
                             (debugDataWith (JArr [1%positive])) |}
         = Some window ∧
         (None : WindowRef) = Some window).
Proof.
  intros H.
  destruct (H (optionsWithDetails (debugDataWith (JArr [1%positive]))) eq_refl)
    as (window & Hsource & _).
  discriminate.
Qed.

(** ** The walk *)

Section Walk.

Context {Hue : Type} {T : Type}.
Implicit Types (w : @Store Hue * T).

Variable fn : ref → @Store Hue * T → Result (@Store Hue * T).

(** The callbacks of this file leave the nodes of the store as they are. *)
Hypothesis fn_nodes : ∀ l w w', fn l w = Ok w' → nodes w'.1 = nodes w.1.

Lemma forEachM_app {A U : Type} (body : A → U → Result U) (xs ys : list A) (s : U) :
  forEachM body (xs ++ ys) s = forEachM body xs s ≫= forEachM body ys.
Proof.
  revert s. induction xs as [|x xs IH]; intros s; simpl; [done|].
  destruct (body x s) as [s'|e]; simpl; [apply IH|done].
Qed.

Lemma forEachM_nodes (ls : list ref) w w' :
  forEachM fn ls w = Ok w' → nodes w'.1 = nodes w.1.
Proof.
  revert w. induction ls as [|l ls IH]; intros w; simpl.
  - by intros [= <-].
  - destruct (fn l w) as [w1|e] eqn:E; simpl; [|done].
    intros H. rewrite (IH _ H). by eapply fn_nodes.
Qed.

(** On a tree, the walk runs the callback on the nodes in preorder. *)
Lemma dfs_preorder (fuel : nat) : ∀ l w,
  isTree fuel (nodes w.1) l = true →
  dfs fuel fn l w = forEachM fn (preorder fuel (nodes w.1) l) w.
Proof.
  induction fuel as [|fuel IH]; intros l w Ht; [discriminate|].
  cbn [dfs preorder forEachM isTree] in *.
  destruct (fn l w) as [w1|e] eqn:E; cbn [mbind Result_bind]; [|done].
  pose proof (fn_nodes _ _ _ E) as Hn. unfold readNode. rewrite Hn.
  destruct (nodes w.1 !! l) as [n|]; [|discriminate].
  cbn [mbind Result_bind]. destruct (children n) as [cs|]; [|done].
  clear E. revert w1 Hn. induction cs as [|c cs IHcs]; intros w1 Hn; [done|].
  cbn [forallb] in Ht. apply andb_true_iff in Ht as [Hc Hcs].
  cbn [forEachM flat_map]. rewrite forEachM_app.
  rewrite <- Hn in Hc. rewrite (IH c w1 Hc), Hn.
  destruct (forEachM fn (preorder fuel (nodes w.1) c) w1) as [w2|e] eqn:E2;
    cbn [mbind Result_bind]; [|done].
  apply IHcs; [done|]. rewrite (forEachM_nodes _ _ _ E2). done.
Qed.

End Walk.

Section TreeFacts.

Implicit Types (h : gmap ref Node).

Lemma isTree_preorder_valid (fuel : nat) h : ∀ l x,
  isTree fuel h l = true → x ∈ preorder fuel h l → is_Some (h !! x).
Proof.
  induction fuel as [|fuel IH]; intros l x Ht Hx; [discriminate|].
  cbn [isTree preorder] in *.
  destruct (h !! l) as [n|] eqn:Hl; [|discriminate].
  apply elem_of_cons in Hx as [->|Hx]; [by rewrite Hl|].
  destruct (children n) as [cs|]; [|by apply not_elem_of_nil in Hx].
  apply list_elem_of_In, in_flat_map in Hx as (c & Hc & Hx).
  apply (IH c x).
  - rewrite forallb_forall in Ht. by apply Ht.
  - by apply list_elem_of_In.
Qed.

Lemma sumsConsistent_isTree (fuel : nat) h : ∀ l,
  sumsConsistent fuel h l = true → isTree fuel h l = true.
Proof.
  induction fuel as [|fuel IH]; intros l; [done|].
  cbn [sumsConsistent isTree].
  destruct (h !! l) as [n|]; [|done]. destruct (children n) as [cs|]; [|done].
  intros [_ H]%andb_true_iff. rewrite forallb_forall in *.
  intros c Hc. by apply IH, H.
Qed.

End TreeFacts.

(** ** The store and the aggregation *)

Section ViewerFacts.

Context {Hue : Type} (COLOR_HUES : list Hue).
Implicit Types (σ : @Store Hue) (this : @TreemapViewer Hue).

Lemma extends_refl σ : extends σ σ.
Proof. by split_and!. Qed.

Lemma extends_trans σ1 σ2 σ3 : extends σ1 σ2 → extends σ2 σ3 → extends σ1 σ3.
Proof.
  intros (? & ? & ?) (? & ? & ?). split_and!; [by etrans|congruence..].
Qed.

Lemma extends_lookup σ σ' l n :
  extends σ σ' → nodes σ !! l = Some n → nodes σ' !! l = Some n.
Proof. intros (Hsub & _) H. by eapply lookup_weaken. Qed.

Lemma extends_dom σ σ' l :
  extends σ σ' → l ∉ dom (nodes σ') → l ∉ dom (nodes σ).
Proof.
  intros (Hsub & _) Hl Hin. apply Hl.
  apply elem_of_dom in Hin as [n Hn]. apply elem_of_dom.
  exists n. by eapply lookup_weaken.
Qed.

Lemma allocNode_fresh σ n : (allocNode σ n).1 ∉ dom (nodes σ).
Proof. apply is_fresh. Qed.

Lemma allocNode_lookup σ n : nodes (allocNode σ n).2 !! (allocNode σ n).1 = Some n.
Proof. simpl. apply lookup_insert_eq. Qed.

Lemma allocNode_extends σ n : extends σ ((allocNode σ n).2).
Proof.
  split_and!; [|done..]. simpl. apply insert_subseteq.
  apply not_elem_of_dom, is_fresh.
Qed.

Lemma rootNodeOf_Some σ rootNode n :
  rootNodeOf σ rootNode = Some n ↔
  ∃ c, containers σ !! rootNode = Some c ∧ nodes σ !! node c = Some n.
Proof.
  unfold rootNodeOf. destruct (containers σ !! rootNode) as [c|]; simpl.
  - split; [eauto|]. by intros (c' & [= <-] & ?).
  - split; [done|]. by intros (c' & ? & ?).
Qed.

Lemma rootNodeOf_extends σ σ' rootNode n :
  extends σ σ' → rootNodeOf σ rootNode = Some n → rootNodeOf σ' rootNode = Some n.
Proof.
  intros Hext (c & Hc & Hn)%rootNodeOf_Some. apply rootNodeOf_Some.
  exists c. split; [|by eapply extends_lookup].
  destruct Hext as (_ & -> & _). done.
Qed.

Lemma childOf_extends σ0 σ1 σ2 σ3 rootNode child :
  extends σ0 σ1 → extends σ2 σ3 → is_Some (rootNodeOf σ0 rootNode) →
  childOf σ1 σ2 rootNode child → childOf σ0 σ3 rootNode child.
Proof.
  intros H01 H23 [n0 (c0 & Hc0 & Hn0)%rootNodeOf_Some] (c & n & Hc & Hn & Hch).
  assert (c = c0) as ->.
  { destruct H01 as (_ & E & _). rewrite E in Hc. congruence. }
  assert (n = n0) as ->.
  { pose proof (extends_lookup _ _ _ _ H01 Hn0). congruence. }
  exists c0, n0. split_and!; [done..|].
  destruct (children n0); [|done].
  destruct Hch as [Hfresh Hw]. split.
  - by eapply extends_dom.
  - by eapply extends_lookup.
Qed.

Lemma childOf_bytes σ σ' rootNode child n :
  extends σ σ' → rootNodeOf σ rootNode = Some n → childOf σ σ' rootNode child →
  ∃ m, nodes σ' !! child = Some m ∧
       resourceBytes m = resourceBytes n ∧ unusedBytes m = unusedBytes n.
Proof.
  intros Hext (c & Hc & Hn)%rootNodeOf_Some (c' & n' & Hc' & Hn' & Hch).
  simplify_eq. destruct (children n).
  - destruct Hch as [_ Hw]. eexists. split; [done|]. done.
  - subst child. exists n. split; [by eapply extends_lookup|done].
Qed.

Lemma wrapRootNode_spec σ rootNode n :
  rootNodeOf σ rootNode = Some n →
  ∃ child σ', wrapRootNode "scripts" rootNode σ = Ok (child, σ') ∧
              extends σ σ' ∧ childOf σ σ' rootNode child.
Proof.
  intros (c & Hc & Hn)%rootNodeOf_Some.
  unfold wrapRootNode, readContainer, readNode. rewrite Hc. simpl.
  rewrite Hn. simpl.
  destruct (children n) as [cs|] eqn:Hcs.
  - exists (allocNode σ (wrapperOf c n)).1, (allocNode σ (wrapperOf c n)).2.
    split; [reflexivity|]. split; [apply allocNode_extends|].
    exists c, n. split_and!; [done..|]. rewrite Hcs. split.
    + apply allocNode_fresh.
    + apply allocNode_lookup.
  - exists (node c), σ. split; [reflexivity|]. split; [apply extends_refl|].
    exists c, n. split_and!; [done..|]. by rewrite Hcs.
Qed.

Lemma mapRootNodes_spec rootNodes : ∀ σ ns,
  Forall2 (λ r n, rootNodeOf σ r = Some n) rootNodes ns →
  ∃ cs σ', mapRootNodes "scripts" rootNodes σ = Ok (cs, σ') ∧
           extends σ σ' ∧ Forall2 (childOf σ σ') rootNodes cs.
Proof.
  induction rootNodes as [|r rest IH]; intros σ ns Hns.
  - exists [], σ. split_and!; [done|apply extends_refl|constructor].
  - inversion Hns as [|? n ? ns' Hr Hrest]; subst.
    destruct (wrapRootNode_spec σ r n Hr) as (child & σ1 & Hw & H1 & Hch).
    destruct (IH σ1 ns') as (cs & σ' & Hm & H2 & Hcs).
    { eapply Forall2_impl; [exact Hrest|]. intros ???.
      by eapply rootNodeOf_extends. }
    exists (child :: cs), σ'. simpl. rewrite Hw. simpl. rewrite Hm. simpl.
    split_and!; [done|by eapply extends_trans|].
    constructor.
    + eapply childOf_extends; [apply extends_refl|exact H2|by eauto|exact Hch].
    + clear -Hcs Hrest H1 H2.
      revert ns' Hrest. induction Hcs as [|r' ch rest' cs' Hc _ IH'];
        intros ns' Hrest; [constructor|].
      inversion Hrest; subst. constructor; [|by eapply IH'].
      eapply childOf_extends; [exact H1|apply extends_refl|by eauto|exact Hc].
Qed.

Lemma sumZ_cons (z : Z) (zs : list Z) : sumZ (z :: zs) = z + sumZ zs.
Proof. reflexivity. Qed.

(** Up to 2^53 in magnitude every integer is a number, and an addition
    whose exact result is in that range is exact. *)
Lemma roundDouble_exact (z : Z) : Z.abs z ≤ 2 ^ 53 → roundDouble z = z.
Proof. unfold roundDouble. intros Hz. by destruct (Z.leb_spec (Z.abs z) (2 ^ 53)); [|lia]. Qed.

Lemma jsAdd_exact (x y : Z) : Z.abs (x + y) ≤ 2 ^ 53 → jsAdd x y = x + y.
Proof. apply roundDouble_exact. Qed.

Lemma sumZ_nonneg (zs : list Z) : Forall (λ z, 0 ≤ z) zs → 0 ≤ sumZ zs.
Proof. induction 1; rewrite ?sumZ_cons; [done|lia]. Qed.

Lemma jsSumFrom_exact (zs : list Z) : ∀ acc,
  0 ≤ acc → Forall (λ z, 0 ≤ z) zs → acc + sumZ zs ≤ 2 ^ 53 →
  jsSumFrom acc zs = acc + sumZ zs.
Proof.
  induction zs as [|z zs IH]; intros acc Hacc Hzs Hle.
  - unfold jsSumFrom, sumZ. simpl. lia.
  - apply Forall_cons in Hzs as [Hz Hzs]. rewrite sumZ_cons in *.
    pose proof (sumZ_nonneg zs Hzs).
    unfold jsSumFrom. cbn [foldl]. fold (jsSumFrom (jsAdd z acc) zs).
    rewrite jsAdd_exact by lia. rewrite IH by (done || lia). lia.
Qed.

Lemma jsSum_exact (zs : list Z) : safeBytes zs → jsSum zs = sumZ zs.
Proof.
  intros [Hzs Hle]. unfold jsSum. rewrite jsSumFrom_exact by (done || lia). lia.
Qed.

Lemma reduce_spec (g : Node → Z) σ cs : ∀ (ms : list Node) acc,
  Forall2 (λ child m, nodes σ !! child = Some m) cs ms →
  reduce (λ acc cur, jsAdd (g cur) acc) σ cs acc
  = Ok (jsSumFrom acc (g <$> ms)).
Proof.
  induction cs as [|c cs IH]; intros ms acc Hms.
  - inversion Hms; subst. done.
  - inversion Hms as [|? m ? ms' Hm Hms']; subst.
    cbn [reduce]. unfold readNode. rewrite Hm. cbn [mbind Result_bind].
    by rewrite (IH ms' _ Hms'), fmap_cons.
Qed.

(** The full description of a call for the group [scripts]. *)
Lemma createRootNodeForGroup_spec this σ rootNodes ns :
  lookupGroup "scripts" (rootNodesByGroup this) = Some rootNodes →
  mapM (rootNodeOf σ) rootNodes = Some ns →
  ∃ root σ' cs,
    createRootNodeForGroup this "scripts" σ = Ok (root, σ') ∧
    extends σ σ' ∧ (root ∉ dom (nodes σ)) ∧
    nodes σ' !! root =
      Some {| name := documentUrl this;
              resourceBytes := jsSum (resourceBytes <$> ns);
              unusedBytes := Some (jsSum ((λ n, default 0 (unusedBytes n)) <$> ns));
              children := Some cs;
              domElement := None |} ∧
    Forall2 (childOf σ σ') rootNodes cs.
Proof.
  intros Hg Hns%mapM_Some. unfold createRootNodeForGroup. rewrite Hg.
  destruct (mapRootNodes_spec rootNodes σ ns Hns) as (cs & σ1 & Hm & H1 & Hcs).
  rewrite Hm. simpl.
  assert (∃ ms, Forall2 (λ child m, nodes σ1 !! child = Some m) cs ms ∧
                resourceBytes <$> ms = resourceBytes <$> ns ∧
                (λ n, default 0 (unusedBytes n)) <$> ms =
                (λ n, default 0 (unusedBytes n)) <$> ns) as (ms & Hms & Erb & Eub).
  { clear Hm Hg. revert ns Hns.
    induction Hcs as [|r ch rest cs' Hc _ IH]; intros ns Hns.
    - inversion Hns; subst. exists []. split_and!; [constructor|done..].
    - inversion Hns as [|? n ? ns' Hr Hrest]; subst.
      destruct (IH ns' Hrest) as (ms & ? & ? & ?).
      destruct (childOf_bytes _ _ _ _ _ H1 Hr Hc) as (m & Hm & E1 & E2).
      exists (m :: ms).
      split_and!; [by constructor|rewrite !fmap_cons; cbv beta; congruence..]. }
  rewrite (reduce_spec resourceBytes σ1 cs ms 0 Hms).
  rewrite (reduce_spec (λ n, default 0 (unusedBytes n)) σ1 cs ms 0 Hms).
  rewrite Erb, Eub. fold (jsSum (resourceBytes <$> ns)).
  fold (jsSum ((λ n, default 0 (unusedBytes n)) <$> ns)).
  cbn [mbind Result_bind fst snd].
  match goal with
  | |- ∃ _ _ _, Ok (allocNode ?s ?x) = _ ∧ _ =>
      exists (allocNode s x).1, (allocNode s x).2, cs
  end.
  split; [reflexivity|].
  split_and!.
  - eapply extends_trans; [exact H1|apply allocNode_extends].
  - eapply extends_dom; [exact H1|apply allocNode_fresh].
  - apply allocNode_lookup.
  - eapply Forall2_impl; [exact Hcs|]. intros r ch Hc.
    eapply childOf_extends;
      [apply extends_refl|apply allocNode_extends| |exact Hc].
    destruct Hc as (c & n & ? & ? & _). exists n. apply rootNodeOf_Some. eauto.
Qed.

(** C1.  For every sequence of root-node containers whose byte counts are
    non-negative integers with totals of at most 2^53, the range in which
    the additions of the code are exact, the call returns a new root whose
    [resourceBytes] is the sum of the [resourceBytes] of the containers'
    nodes and whose [unusedBytes] is the sum of their [unusedBytes], a
    missing one counting as 0. *)
Theorem createRootNodeForGroup_sums this σ rootNodes ns :
  lookupGroup "scripts" (rootNodesByGroup this) = Some rootNodes →
  mapM (rootNodeOf σ) rootNodes = Some ns →
  safeBytes (resourceBytes <$> ns) →
  safeBytes ((λ n, default 0 (unusedBytes n)) <$> ns) →
  ∃ root σ' r,
    createRootNodeForGroup this "scripts" σ = Ok (root, σ') ∧
    nodes σ' !! root = Some r ∧
    resourceBytes r = sumZ (resourceBytes <$> ns) ∧
    unusedBytes r = Some (sumZ ((λ n, default 0 (unusedBytes n)) <$> ns)).
Proof.
  intros Hg Hns Hrb Hub.
  destruct (createRootNodeForGroup_spec this σ rootNodes ns Hg Hns)
    as (root & σ' & cs & Hcall & _ & _ & Hroot & _).
  eexists root, σ', _. split_and!; [exact Hcall|exact Hroot|..]; simpl.
  - by apply jsSum_exact.
  - f_equal. by apply jsSum_exact.
Qed.

(** C2.  With no containers the call does not throw; the root it returns
    has [resourceBytes] 0, [unusedBytes] 0 and an empty [children] array. *)
Theorem createRootNodeForGroup_empty this σ :
  lookupGroup "scripts" (rootNodesByGroup this) = Some [] →
  ∃ root σ',
    createRootNodeForGroup this "scripts" σ = Ok (root, σ') ∧
    nodes σ' !! root =
      Some {| name := documentUrl this; resourceBytes := 0;
              unusedBytes := Some 0; children := Some [];
              domElement := None |}.
Proof.
  intros Hg. unfold createRootNodeForGroup. rewrite Hg.
  cbn [mapRootNodes reduce mbind Result_bind fst snd].
  eexists _, _. split; [reflexivity|]. apply allocNode_lookup.
Qed.

(** C3.  The children of the root are in the order of the containers, one
    for each: the [i]-th child is the [i]-th container's node itself when
    that node has no [children] property, and else a new wrapper whose name
    is the container's, whose only child is the container's node and whose
    [resourceBytes] and [unusedBytes] are those of that node. *)
Theorem createRootNodeForGroup_children this σ rootNodes ns :
  lookupGroup "scripts" (rootNodesByGroup this) = Some rootNodes →
  mapM (rootNodeOf σ) rootNodes = Some ns →
  ∃ root σ' r cs,
    createRootNodeForGroup this "scripts" σ = Ok (root, σ') ∧
    nodes σ' !! root = Some r ∧ children r = Some cs ∧
    length cs = length rootNodes ∧
    ∀ i rootNode, rootNodes !! i = Some rootNode →
      ∃ c n child,
        containers σ !! rootNode = Some c ∧ nodes σ !! node c = Some n ∧
        cs !! i = Some child ∧
        (children n = None → child = node c) ∧
        (is_Some (children n) →
           (child ∉ dom (nodes σ)) ∧
           nodes σ' !! child =
             Some {| name := containerName c;
                     resourceBytes := resourceBytes n;
                     unusedBytes := unusedBytes n;
                     children := Some [node c];
                     domElement := None |}).
Proof.
  intros Hg Hns.
  destruct (createRootNodeForGroup_spec this σ rootNodes ns Hg Hns)
    as (root & σ' & cs & Hcall & _ & _ & Hroot & Hcs).
  eexists root, σ', _, cs. split_and!; [exact Hcall|exact Hroot|done| |].
  - symmetry. by eapply Forall2_length.
  - intros i rootNode Hi.
    destruct (Forall2_lookup_l _ _ _ _ _ Hcs Hi)
      as (child & Hchild & c & n & Hc & Hn & Hshape).
    exists c, n, child. split_and!; [done..| |].
    + intros E. by rewrite E in Hshape.
    + intros [cs' E]. by rewrite E in Hshape.
Qed.

(** C8.  The call leaves every object of the store as it was: every node
    and every container has the same fields after the call, and so has every
    style.  The root is a new object, and each of its children is either the
    node of the container at the same position or a new object. *)
Theorem createRootNodeForGroup_frame this σ rootNodes ns :
  lookupGroup "scripts" (rootNodesByGroup this) = Some rootNodes →
  mapM (rootNodeOf σ) rootNodes = Some ns →
  ∃ root σ' r cs,
    createRootNodeForGroup this "scripts" σ = Ok (root, σ') ∧
    (∀ l n, nodes σ !! l = Some n → nodes σ' !! l = Some n) ∧
    containers σ' = containers σ ∧ styles σ' = styles σ ∧
    (root ∉ dom (nodes σ)) ∧
    nodes σ' !! root = Some r ∧ children r = Some cs ∧
    ∀ i child, cs !! i = Some child →
      (child ∉ dom (nodes σ)) ∨
      ∃ rootNode c, rootNodes !! i = Some rootNode ∧
                    containers σ !! rootNode = Some c ∧ child = node c.
Proof.
  intros Hg Hns.
  destruct (createRootNodeForGroup_spec this σ rootNodes ns Hg Hns)
    as (root & σ' & cs & Hcall & Hext & Hfresh & Hroot & Hcs).
  eexists root, σ', _, cs.
  split_and!; [exact Hcall| |apply Hext|apply Hext|exact Hfresh|exact Hroot|done|].
  - intros l n. by apply extends_lookup.
  - intros i child Hi.
    destruct (Forall2_lookup_r _ _ _ _ _ Hcs Hi)
      as (rootNode & Hr & c & n & Hc & Hn & Hshape).
    destruct (children n).
    + left. apply Hshape.
    + right. eauto.
Qed.

End ViewerFacts.

(** Concrete byte counts are in the exact range. *)
Ltac safe_bytes :=
  split;
  [vm_compute; repeat (apply Forall_cons_2; [done|]); apply Forall_nil_2
  |vm_compute; discriminate].

Lemma createRootNodeForGroup_sums_witness :
  ∃ root σ' r,
    createRootNodeForGroup exampleViewer "scripts" exampleStore = Ok (root, σ') ∧
    nodes σ' !! root = Some r ∧ resourceBytes r = 35.
Proof.
  destruct (createRootNodeForGroup_sums exampleViewer exampleStore
              exampleRootNodes
              exampleNodes eq_refl eq_refl ltac:(safe_bytes) ltac:(safe_bytes))
    as (root & σ' & r & Hcall & Hroot & Hrb & _).
  exists root, σ', r. split_and!; [exact Hcall|exact Hroot|].
  rewrite Hrb. reflexivity.
Defined.

(** C1, as stated, fails: for byte counts 2^53 and 1 the root has
    [resourceBytes] 2^53, which is not their sum: numbers are binary64, and
    the sum 2^53 + 1 is rounded. *)
Lemma createRootNodeForGroup_sums_rounded :
  ¬ (∃ root σ' r,
       createRootNodeForGroup twoContainerViewer "scripts" roundedStore
       = Ok (root, σ') ∧
       nodes σ' !! root = Some r ∧
       resourceBytes r
       = sumZ (resourceBytes <$> [leaf "big.js" (2 ^ 53); leaf "one.js" 1])).
Proof.
  intros (root & σ' & r & Hcall & Hroot & Hrb).
  vm_compute in Hcall. injection Hcall as <- <-.
  vm_compute in Hroot. injection Hroot as <-.
  vm_compute in Hrb. discriminate.
Qed.

(** Beyond 2^53 a sum depends on the order of its terms. *)
Example jsSum_order :
  jsSum [2 ^ 53; 1; 1] = 2 ^ 53 ∧ jsSum [1; 1; 2 ^ 53] = 2 ^ 53 + 2.
Proof. by vm_compute. Qed.

Lemma createRootNodeForGroup_empty_witness :
  ∃ root σ',
    createRootNodeForGroup emptyViewer "scripts" emptyStore = Ok (root, σ') ∧
    nodes σ' !! root =
      Some {| name := "https://example.com/"; resourceBytes := 0;
              unusedBytes := Some 0; children := Some [];
              domElement := None |}.
Proof. exact (createRootNodeForGroup_empty emptyViewer emptyStore eq_refl). Defined.

Lemma createRootNodeForGroup_children_witness :
  ∃ root σ' r cs,
    createRootNodeForGroup exampleViewer "scripts" exampleStore = Ok (root, σ') ∧
    nodes σ' !! root = Some r ∧ children r = Some cs ∧
    cs !! 0%nat = Some 1%positive ∧
    ∃ wrapper, cs !! 1%nat = Some wrapper ∧
      nodes σ' !! wrapper =
        Some {| name := "https://example.com/b.js"; resourceBytes := 20;
                unusedBytes := Some 3; children := Some [2%positive];
                domElement := None |}.
Proof.
  destruct (createRootNodeForGroup_children exampleViewer exampleStore
              exampleRootNodes
              exampleNodes eq_refl eq_refl)
    as (root & σ' & r & cs & Hcall & Hroot & Hch & _ & Hi).
  exists root, σ', r, cs. split_and!; [exact Hcall|exact Hroot|exact Hch| |].
  - destruct (Hi 0%nat 1%positive eq_refl)
      as (c & n & child & Hc & Hn & Hcs & Hleaf & _).
    vm_compute in Hc. injection Hc as <-.
    vm_compute in Hn. injection Hn as <-.
    transitivity (Some child); [exact Hcs|]. f_equal. exact (Hleaf eq_refl).
  - destruct (Hi 1%nat 2%positive eq_refl)
      as (c & n & child & Hc & Hn & Hcs & _ & Hwrap).
    vm_compute in Hc. injection Hc as <-.
    vm_compute in Hn. injection Hn as <-.
    exists child. split; [exact Hcs|]. apply Hwrap. eexists. reflexivity.
Defined.

(** The test [rootNode.node.children] is one of presence: a node with an
    empty [children] array is wrapped like any other that has the
    property. *)
Example createRootNodeForGroup_wraps_empty_children :
  wrapRootNode "scripts" 1%positive
    {| nodes := {[ 1%positive :=
                   {| name := "a.js"; resourceBytes := 7; unusedBytes := None;
                      children := Some []; domElement := None |} ]};
       containers := {[ 1%positive :=
                        {| containerName := "https://example.com/a.js";
                           node := 1%positive |} ]};
       styles := (∅ : gmap ref (Style nat)) |}
  ≫= (λ r, Ok (nodes r.2 !! r.1))
  = Ok (Some {| name := "https://example.com/a.js"; resourceBytes := 7;
                unusedBytes := None; children := Some [1%positive];
                domElement := None |}).
Proof. reflexivity. Qed.

(** C3, as stated, fails: a node whose [children] is the empty array has no
    children, and yet the child of the root is not that node but a
    wrapper. *)
Lemma createRootNodeForGroup_children_empty_array :
  ¬ (∃ root σ' r,
       createRootNodeForGroup oneContainerViewer "scripts" emptyChildrenStore
       = Ok (root, σ') ∧
       nodes σ' !! root = Some r ∧ children r = Some [1%positive]).
Proof.
  intros (root & σ' & r & Hcall & Hroot & Hch).
  vm_compute in Hcall. injection Hcall as <- <-.
  vm_compute in Hroot. injection Hroot as <-.
  vm_compute in Hch. discriminate.
Qed.

Lemma createRootNodeForGroup_frame_witness :
  ∃ root σ',
    createRootNodeForGroup exampleViewer "scripts" exampleStore = Ok (root, σ') ∧
    nodes σ' !! 2%positive = nodes exampleStore !! 2%positive ∧
    containers σ' = containers exampleStore ∧
    root ∉ dom (nodes exampleStore).
Proof.
  destruct (createRootNodeForGroup_frame exampleViewer exampleStore
              exampleRootNodes
              exampleNodes eq_refl eq_refl)
    as (root & σ' & r & cs & Hcall & Hsame & Hcont & _ & Hfresh & _).
  exists root, σ'. split_and!; [exact Hcall| |exact Hcont|exact Hfresh].
  apply Hsame. reflexivity.
Defined.

(** ** The byte count of the "All" view mode *)

Section ViewModes.

Context {Hue : Type}.
Implicit Types (σ : @Store Hue) (this : @TreemapViewer Hue) (h : gmap ref Node).

Lemma sumZ_app (xs ys : list Z) : sumZ (xs ++ ys) = sumZ xs + sumZ ys.
Proof.
  induction xs as [|x xs IH]; [done|].
  rewrite <- app_comm_cons, !sumZ_cons, IH. lia.
Qed.

Lemma addLeafBytes_nodes (l : ref) (w w' : @Store Hue * Z) :
  addLeafBytes l w = Ok w' → nodes w'.1 = nodes w.1.
Proof.
  unfold addLeafBytes. destruct (readNode w.1 l) as [n|]; simpl; [|done].
  case_bool_decide; by intros [= <-].
Qed.

Lemma addLeafBytes_valid (l : ref) σ (bytes : Z) :
  is_Some (nodes σ !! l) →
  addLeafBytes l (σ, bytes) = Ok (σ, addLeafAt (nodes σ) bytes l).
Proof.
  intros [n Hn]. unfold addLeafBytes, readNode, addLeafAt. cbn [fst snd].
  rewrite Hn. cbn [mbind Result_bind]. destruct (children n) as [cs|].
  - by rewrite bool_decide_eq_true_2 by eauto.
  - by rewrite bool_decide_eq_false_2 by (by intros [? ?]).
Qed.

Lemma forEachM_addLeafBytes (ls : list ref) σ : ∀ bytes,
  (∀ l, l ∈ ls → is_Some (nodes σ !! l)) →
  forEachM addLeafBytes ls (σ, bytes)
  = Ok (σ, leafTotalFrom (nodes σ) bytes ls).
Proof.
  induction ls as [|l ls IH]; intros bytes Hv; [done|].
  cbn [forEachM]. rewrite addLeafBytes_valid by apply Hv, list_elem_of_here.
  cbn [mbind Result_bind].
  by rewrite IH by (intros; apply Hv; by apply list_elem_of_further).
Qed.

(** On a tree the walk of [renderViewModeOptions] adds the [resourceBytes]
    of the nodes without a [children] property to [bytes], one after the
    other in the order of the walk. *)
Lemma dfs_addLeafBytes (fuel : nat) σ (l : ref) (bytes : Z) :
  isTree fuel (nodes σ) l = true →
  dfs fuel addLeafBytes l (σ, bytes)
  = Ok (σ, leafTotalFrom (nodes σ) bytes (preorder fuel (nodes σ) l)).
Proof.
  intros Ht. rewrite (dfs_preorder _ addLeafBytes_nodes) by done.
  apply forEachM_addLeafBytes. intros x Hx. by eapply isTree_preorder_valid.
Qed.

Lemma addRootNodeBytes_spec (fuel : nat) σ (rootNode : ref) (bytes : Z) :
  holdsTree fuel σ rootNode = true →
  addRootNodeBytes fuel rootNode (σ, bytes)
  = Ok (σ, leafTotalFrom (nodes σ) bytes (nodesOfRootNode fuel σ rootNode)).
Proof.
  unfold holdsTree, addRootNodeBytes, nodesOfRootNode, readContainer.
  cbn [fst]. destruct (containers σ !! rootNode) as [c|]; [|discriminate].
  intros Ht. cbn [mbind Result_bind]. by apply dfs_addLeafBytes.
Qed.

Lemma renderViewModeOptions_spec (fuel : nat) σ (rootNodes : list ref) :
  forallb (holdsTree fuel σ) rootNodes = true →
  renderViewModeOptions fuel rootNodes σ
  = Ok [("All", leafTotalFrom (nodes σ) 0 (allNodes fuel σ rootNodes))].
Proof.
  intros Hts. unfold renderViewModeOptions.
  assert (∀ bytes,
    forEachM (addRootNodeBytes fuel) rootNodes (σ, bytes)
    = Ok (σ, leafTotalFrom (nodes σ) bytes (allNodes fuel σ rootNodes)))
    as ->.
  { induction rootNodes as [|r rest IH]; intros bytes; [done|].
    cbn [forallb] in Hts. apply andb_true_iff in Hts as [Hr Hrest].
    cbn [forEachM]. rewrite addRootNodeBytes_spec by done.
    cbn [mbind Result_bind]. rewrite (IH Hrest).
    unfold allNodes, leafTotalFrom. cbn [flat_map]. by rewrite foldl_app. }
  reflexivity.
Qed.

(** For byte counts in the exact range the total is the sum. *)
Lemma leafTotalFrom_exact h (ls : list ref) : ∀ bytes,
  0 ≤ bytes → Forall (λ z, 0 ≤ z) (leafBytesAt h <$> ls) →
  bytes + sumZ (leafBytesAt h <$> ls) ≤ 2 ^ 53 →
  leafTotalFrom h bytes ls = bytes + sumZ (leafBytesAt h <$> ls).
Proof.
  induction ls as [|l ls IH]; intros bytes Hb Hls Hle.
  - unfold leafTotalFrom, sumZ. simpl. lia.
  - rewrite fmap_cons in Hls, Hle. rewrite fmap_cons.
    apply Forall_cons in Hls as [Hl Hls]. rewrite sumZ_cons in *.
    pose proof (sumZ_nonneg _ Hls).
    unfold leafTotalFrom. cbn [foldl].
    fold (leafTotalFrom h (addLeafAt h bytes l) ls).
    assert (addLeafAt h bytes l = bytes + leafBytesAt h l) as ->.
    { unfold addLeafAt, leafBytesAt in *. destruct (h !! l) as [n|]; [|lia].
      destruct (children n); [lia|]. apply jsAdd_exact. lia. }
    rewrite IH by (done || lia). lia.
Qed.

Lemma leafTotal_exact h (ls : list ref) :
  safeBytes (leafBytesAt h <$> ls) →
  leafTotalFrom h 0 ls = sumZ (leafBytesAt h <$> ls).
Proof.
  intros [Hls Hle]. rewrite leafTotalFrom_exact by (done || lia). lia.
Qed.

Lemma sumZ_flat_map_bytes (f g : ref → Z) (k : ref → list ref) (cs : list ref) :
  (∀ c, c ∈ cs → sumZ (f <$> k c) = g c) →
  sumZ (f <$> flat_map k cs) = sumZ (g <$> cs).
Proof.
  induction cs as [|c cs IH]; intros H; [done|].
  cbn [flat_map]. rewrite fmap_app, sumZ_app, fmap_cons, sumZ_cons.
  rewrite H by apply list_elem_of_here.
  rewrite IH; [done|]. intros; apply H. by apply list_elem_of_further.
Qed.

(** When the sums are consistent, the leaves below a node add up to the
    node's own [resourceBytes]. *)
Lemma leafBytes_consistent (fuel : nat) h : ∀ l,
  sumsConsistent fuel h l = true →
  sumZ (leafBytesAt h <$> preorder fuel h l) = bytesAt h l.
Proof.
  induction fuel as [|fuel IH]; intros l Hs; [discriminate|].
  cbn [sumsConsistent preorder] in *. rewrite fmap_cons, sumZ_cons.
  unfold leafBytesAt at 1, bytesAt.
  destruct (h !! l) as [n|]; [|discriminate].
  destruct (children n) as [cs|].
  - apply andb_true_iff in Hs as [Hsum Hcs].
    apply bool_decide_eq_true in Hsum. rewrite Hsum.
    rewrite (sumZ_flat_map_bytes _ (bytesAt h)); [lia|].
    intros c Hc. apply IH. rewrite forallb_forall in Hcs.
    by apply Hcs, list_elem_of_In.
  - unfold sumZ. simpl. lia.
Qed.

Lemma consistent_rootNodes (fuel : nat) σ (rootNodes : list ref) :
  forallb (holdsConsistentTree fuel σ) rootNodes = true →
  forallb (holdsTree fuel σ) rootNodes = true ∧
  ∃ ns, mapM (rootNodeOf σ) rootNodes = Some ns ∧
        sumZ (leafBytesAt (nodes σ) <$> allNodes fuel σ rootNodes)
        = sumZ (resourceBytes <$> ns) ∧
        (Forall (λ z, 0 ≤ z)
                (leafBytesAt (nodes σ) <$> allNodes fuel σ rootNodes) →
         Forall (λ z, 0 ≤ z) (resourceBytes <$> ns)).
Proof.
  induction rootNodes as [|r rest IH]; intros H.
  - split; [done|]. exists []. done.
  - cbn [forallb] in H. apply andb_true_iff in H as [Hr Hrest].
    destruct (IH Hrest) as (Hts & ns & Hns & Hsum & Hpos).
    unfold holdsConsistentTree in Hr.
    destruct (containers σ !! r) as [c|] eqn:Hc; [|discriminate].
    pose proof (sumsConsistent_isTree _ _ _ Hr) as Ht.
    destruct (isTree_preorder_valid fuel (nodes σ) (node c) (node c) Ht)
      as [n Hn].
    { destruct fuel; [discriminate|]. apply list_elem_of_here. }
    pose proof (leafBytes_consistent _ _ _ Hr) as Hleaves.
    unfold bytesAt in Hleaves. rewrite Hn in Hleaves.
    split.
    + cbn [forallb]. unfold holdsTree at 1. rewrite Hc, Ht. done.
    + exists (n :: ns). unfold allNodes in *. cbn [flat_map].
      unfold nodesOfRootNode at 1 3. rewrite Hc, !fmap_app, fmap_cons.
      split; [|split].
      * apply mapM_Some. constructor; [|by apply mapM_Some].
        apply rootNodeOf_Some. eauto.
      * rewrite sumZ_app, sumZ_cons, Hleaves, Hsum. done.
      * intros [Hhere Hthere]%Forall_app. apply Forall_cons. split.
        -- rewrite <- Hleaves. by apply sumZ_nonneg.
        -- by apply Hpos.
Qed.


End ViewModes.



(** ** The stable hasher *)

Section HasherFacts.

Context {Hue : Type}.
Implicit Types (h : @Hasher Hue) (k key : string) (keys seen : list string).

Lemma hasherLe_refl h : hasherLe h h.
Proof. by split_and!. Qed.

Lemma hasherLe_trans h1 h2 h3 : hasherLe h1 h2 → hasherLe h2 h3 → hasherLe h1 h3.
Proof.
  intros (Hp1 & Hs1 & He1) (Hp2 & Hs2 & He2). split_and!.
  - congruence.
  - by etrans.
  - intros Hfull. rewrite <- (He1 Hfull). apply He2.
    rewrite Hp1, (He1 Hfull). done.
Qed.

Lemma callHasher_le key h : hasherLe h (callHasher key h).2.
Proof.
  unfold callHasher. destruct (assigned h !! key) eqn:Hk;
    [apply hasherLe_refl|].
  case_decide as Hroom; [|apply hasherLe_refl].
  split_and!; simpl; [done| |lia]. by apply insert_subseteq.
Qed.

Lemma callsHasher_le keys : ∀ h, hasherLe h (callsHasher keys h).2.
Proof.
  induction keys as [|k keys IH]; intros h; [apply hasherLe_refl|].
  cbn [callsHasher]. pose proof (callHasher_le k h) as H1.
  destruct (callHasher k h) as [v h1]. pose proof (IH h1) as H2.
  destruct (callsHasher keys h1) as [vs h2]. simpl in *.
  by eapply hasherLe_trans.
Qed.

(** A call made after [key] has been asked for returns what that call
    returned. *)
Lemma callHasher_stable key h h' :
  hasherLe (callHasher key h).2 h' → (callHasher key h').1 = (callHasher key h).1.
Proof.
  unfold callHasher. destruct (assigned h !! key) as [i|] eqn:Hk.
  - simpl. intros (Hp & Hs & _).
    rewrite (lookup_weaken _ _ _ _ Hk Hs). simpl. by rewrite Hp.
  - case_decide as Hroom; simpl.
    + intros (Hp & Hs & _). simpl in *.
      rewrite (lookup_weaken (<[key:=size (assigned h)]> (assigned h)) _ key
                 (size (assigned h))); [|apply lookup_insert_eq|done].
      simpl. by rewrite Hp.
    + intros (Hp & _ & He). rewrite He by lia. rewrite Hk.
      rewrite decide_False by (rewrite Hp; lia). done.
Qed.

(** Every call of a run returned what the closure returns for that key at
    the end of the run. *)
Lemma callsHasher_results keys : ∀ h i k,
  keys !! i = Some k →
  (callsHasher keys h).1 !! i = Some (callHasher k (callsHasher keys h).2).1.
Proof.
  induction keys as [|k0 keys IH]; intros h i k Hi; [done|].
  cbn [callsHasher]. pose proof (callsHasher_le keys (callHasher k0 h).2) as Hle.
  specialize (IH (callHasher k0 h).2).
  destruct (callHasher k0 h) as [v h1] eqn:E1.
  destruct (callsHasher keys h1) as [vs h2] eqn:E2. simpl in *.
  destruct i as [|i]; simpl in *.
  - injection Hi as <-. f_equal.
    pose proof (callHasher_stable k0 h h2) as Hst. rewrite E1 in Hst.
    rewrite E2 in Hle. symmetry. by apply Hst.
  - rewrite E2 in IH. by apply IH.
Qed.







(** C4.  Any two calls [getHue(key)] on one instance return the same: in
    every run of calls on a closure, whatever its state at the start, the
    calls that ask for the same key have the same result (a hue, or
    [undefined]).  The viewer's instance is [stableHasher COLOR_HUES]. *)
Theorem getHue_idempotent h keys (i j : nat) key :
  keys !! i = Some key → keys !! j = Some key →
  (callsHasher keys h).1 !! i = (callsHasher keys h).1 !! j.
Proof.
  intros Hi Hj.
  by rewrite (callsHasher_results keys h i key Hi),
             (callsHasher_results keys h j key Hj).
Qed.



End HasherFacts.

Lemma getHue_idempotent_witness :
  (callsHasher ["https://example.com/a.js"; "https://example.com/b.js";
                "https://example.com/a.js"]
     (stableHasher examplePalette)).1 !! 0%nat
  = (callsHasher ["https://example.com/a.js"; "https://example.com/b.js";
                  "https://example.com/a.js"]
       (stableHasher examplePalette)).1 !! 2%nat.
Proof.
  exact (getHue_idempotent (stableHasher examplePalette)
           ["https://example.com/a.js"; "https://example.com/b.js";
            "https://example.com/a.js"] 0 2 "https://example.com/a.js"
           eq_refl eq_refl).
Defined.

(** Two hues for three keys: the third key seen gets none, also when it is
    asked for again. *)
Example getHue_palette_exhausted :
  (callsHasher ["a.js"; "b.js"; "c.js"; "a.js"; "c.js"]
     (stableHasher examplePalette)).1
  = [Some 4%nat; Some 340%nat; None; Some 4%nat; None].
Proof. reflexivity. Qed.

(** ** The registration of nodes and the hue keys *)

Section Registration.

Context {Hue : Type} (COLOR_HUES : list Hue).
Implicit Types (σ : @Store Hue) (this : @TreemapViewer Hue) (m : gmap ref ref).

Lemma setAll_lookup (rootNode : ref) (ls : list ref) : ∀ m x,
  setAll rootNode ls m !! x = if decide (x ∈ ls) then Some rootNode else m !! x.
Proof.
  unfold setAll. induction ls as [|l ls IH]; intros m x; cbn [foldl].
  - case_decide as Hin; [|done]. by apply not_elem_of_nil in Hin.
  - rewrite IH. rewrite (lookup_insert m l x rootNode).
    repeat case_decide; try done; subst.
    + exfalso. match goal with H : _ ∉ _ :: _ |- _ => apply H end.
      by apply list_elem_of_further.
    + exfalso. match goal with H : _ ∉ _ :: _ |- _ => apply H end.
      apply list_elem_of_here.
    + match goal with H : _ ∈ _ :: _ |- _ =>
        apply elem_of_cons in H as [?|?]; done end.
Qed.

Lemma registered_notin (fuel : nat) σ (rootNodes : list ref) : ∀ m x,
  x ∉ allNodes fuel σ rootNodes → registered fuel σ rootNodes m !! x = m !! x.
Proof.
  unfold registered, allNodes.
  induction rootNodes as [|r rest IH]; intros m x Hx; [done|].
  cbn [foldl flat_map] in *. rewrite elem_of_app in Hx.
  rewrite IH by tauto. rewrite setAll_lookup, decide_False; [done|tauto].
Qed.


Lemma forEachM_set (rootNode : ref) (ls : list ref) σ : ∀ m,
  forEachM (λ l (w' : Store * gmap ref ref), Ok (w'.1, <[l := rootNode]> w'.2))
           ls (σ, m)
  = Ok (σ, setAll rootNode ls m).
Proof.
  induction ls as [|l ls IH]; intros m; [done|].
  cbn [forEachM mbind Result_bind fst snd]. by rewrite IH.
Qed.

Lemma registerRootNode_spec (fuel : nat) σ (rootNode : ref) m :
  holdsTree fuel σ rootNode = true →
  registerRootNode fuel rootNode (σ, m)
  = Ok (σ, setAll rootNode (nodesOfRootNode fuel σ rootNode) m).
Proof.
  unfold holdsTree, registerRootNode, nodesOfRootNode, readContainer.
  cbn [fst]. destruct (containers σ !! rootNode) as [c|]; [|discriminate].
  intros Ht. cbn [mbind Result_bind].
  rewrite (dfs_preorder _) by (by intros l w w' [= <-] || done).
  apply forEachM_set.
Qed.

Lemma constructor_fields_spec (fuel : nat) σ (rootNodes : list ref)
    (requestedUrl : string) :
  forallb (holdsTree fuel σ) rootNodes = true →
  constructor_fields COLOR_HUES fuel rootNodes requestedUrl σ
  = Ok (σ, {| nodeToRootNodeMap := registered fuel σ rootNodes ∅;
              rootNodesByGroup := [("scripts", rootNodes)];
              currentRootNode := None;
              documentUrl := requestedUrl;
              getHue := stableHasher COLOR_HUES |}).
Proof.
  intros Hts. unfold constructor_fields.
  cbn [fmap list_fmap snd forEachM].
  assert (∀ m, forEachM (registerRootNode fuel) rootNodes (σ, m)
               = Ok (σ, registered fuel σ rootNodes m)) as ->; [|done].
  induction rootNodes as [|r rest IH]; intros m; [done|].
  cbn [forallb] in Hts. apply andb_true_iff in Hts as [Hr Hrest].
  cbn [forEachM]. rewrite registerRootNode_spec by done.
  cbn [mbind Result_bind]. by rewrite (IH Hrest).
Qed.

End Registration.

(** ** The colouring pass *)

Section Colours.

Context {Hue : Type}.
Implicit Types (σ : @Store Hue) (this : @TreemapViewer Hue) (h : @Hasher Hue).

Lemma paintNode_nodes this (l : ref) (w w' : @Store Hue * @Hasher Hue) :
  paintNode this l w = Ok w' → nodes w'.1 = nodes w.1.
Proof.
  unfold paintNode. destruct (hueKeyOf this w.1 l); simpl; [|done].
  destruct (readNode w.1 l) as [n|]; simpl; [|done].
  destruct (domElement n); by intros [= <-].
Qed.

Lemma hueKeyOf_ext this σ σ' (l : ref) :
  containers σ' = containers σ →
  name <$> nodes σ' !! l = name <$> nodes σ !! l →
  hueKeyOf this σ' l = hueKeyOf this σ l.
Proof.
  intros Hc Hn. unfold hueKeyOf, readContainer, readNode. rewrite Hc.
  destruct (nodeToRootNodeMap this !! l); [done|].
  destruct (nodes σ' !! l), (nodes σ !! l); simpl in *; congruence.
Qed.

(** One step of the pass. *)
Lemma paintNode_spec this σ h (l : ref) (key : string) (n : Node) :
  hueKeyOf this σ l = Ok key → nodes σ !! l = Some n →
  paintNode this l (σ, h)
  = Ok (match domElement n with
        | Some el => setStyle σ el (colorsOf (callHasher key h).1)
        | None => σ
        end, (callHasher key h).2).
Proof.
  intros Hk Hn. unfold paintNode, readNode. cbn [fst snd]. rewrite Hk, Hn.
  cbn [mbind Result_bind]. by destruct (domElement n).
Qed.




End Colours.


(** ** Hue keys *)

Section HueKeys.

Context {Hue : Type} (COLOR_HUES : list Hue).
Implicit Types (σ : @Store Hue) (this : @TreemapViewer Hue) (m : gmap ref ref).

Lemma holdsTree_container (fuel : nat) σ (rootNode : ref) :
  holdsTree fuel σ rootNode = true →
  ∃ c n, containers σ !! rootNode = Some c ∧ nodes σ !! node c = Some n ∧
         node c ∈ nodesOfRootNode fuel σ rootNode.
Proof.
  unfold holdsTree, nodesOfRootNode.
  destruct (containers σ !! rootNode) as [c|]; [|done]. intros Ht.
  assert (node c ∈ preorder fuel (nodes σ) (node c)) as Hin.
  { destruct fuel; [discriminate|]. apply list_elem_of_here. }
  destruct (isTree_preorder_valid _ _ _ _ Ht Hin) as [n Hn]. eauto.
Qed.

Lemma holdsTree_rootNodes (fuel : nat) σ (rootNodes : list ref) :
  forallb (holdsTree fuel σ) rootNodes = true →
  ∃ ns, mapM (rootNodeOf σ) rootNodes = Some ns.
Proof.
  induction rootNodes as [|r rest IH]; intros H; [by exists []|].
  cbn [forallb] in H. apply andb_true_iff in H as [Hr Hrest].
  destruct (IH Hrest) as [ns Hns].
  destruct (holdsTree_container _ _ _ Hr) as (c & n & Hc & Hn & _).
  exists (n :: ns). apply mapM_Some. constructor; [|by apply mapM_Some].
  apply rootNodeOf_Some. eauto.
Qed.

Lemma allNodes_elem (fuel : nat) σ (rootNodes : list ref) (x : ref) :
  x ∈ allNodes fuel σ rootNodes ↔
  ∃ rootNode, rootNode ∈ rootNodes ∧ x ∈ nodesOfRootNode fuel σ rootNode.
Proof.
  unfold allNodes. rewrite list_elem_of_In, in_flat_map.
  by setoid_rewrite list_elem_of_In.
Qed.

Lemma allNodes_valid (fuel : nat) σ (rootNodes : list ref) (x : ref) :
  forallb (holdsTree fuel σ) rootNodes = true →
  x ∈ allNodes fuel σ rootNodes → is_Some (nodes σ !! x).
Proof.
  intros Hts (r & Hr & Hx)%allNodes_elem.
  rewrite forallb_forall in Hts. apply list_elem_of_In, Hts in Hr.
  unfold holdsTree, nodesOfRootNode in *.
  destruct (containers σ !! r) as [c|]; [|done].
  by eapply isTree_preorder_valid.
Qed.

(** The map holds nothing but nodes of the trees, each mapped to a
    container whose tree it is in. *)
Lemma registered_values (fuel : nat) σ (rootNodes : list ref) : ∀ m x r,
  registered fuel σ rootNodes m !! x = Some r →
  m !! x = Some r ∨ (r ∈ rootNodes ∧ x ∈ nodesOfRootNode fuel σ r).
Proof.
  unfold registered.
  induction rootNodes as [|r0 rest IH]; intros m x r Hx; [by left|].
  cbn [foldl] in Hx. apply IH in Hx as [Hx|[Hr Hx]].
  - rewrite setAll_lookup in Hx. case_decide as Hin; [|by left].
    injection Hx as <-. right. split; [apply list_elem_of_here|done].
  - right. split; [by apply list_elem_of_further|done].
Qed.


End HueKeys.


(** Every node of a concrete walk has the property [tac] proves. *)
Ltac each_node Hl tac :=
  vm_compute in Hl;
  repeat (apply elem_of_cons in Hl as [->|Hl]; [tac|]);
  by apply not_elem_of_nil in Hl.



(** * More properties *)

(** ** Trees, fuel and larger stores *)

Section TreeMore.

Implicit Types (h : gmap ref Node).

(** More fuel changes nothing on a tree. *)
Lemma isTree_S (fuel : nat) h : ∀ l,
  isTree fuel h l = true →
  isTree (S fuel) h l = true ∧ preorder (S fuel) h l = preorder fuel h l.
Proof.
  induction fuel as [|fuel IH]; intros l Ht; [discriminate|].
  cbn [isTree preorder] in Ht |- *. cbn [isTree preorder] in IH.
  destruct (h !! l) as [n|]; [|discriminate].
  destruct (children n) as [cs|]; [|done].
  rewrite forallb_forall in Ht. split.
  - apply forallb_forall. intros c Hc. by apply IH, Ht.
  - f_equal. induction cs as [|c cs IHcs]; [done|]. cbn [flat_map].
    rewrite (proj2 (IH c (Ht c (or_introl eq_refl)))). f_equal.
    apply IHcs. intros x Hx. apply Ht. by right.
Qed.

Lemma isTree_le (fuel fuel' : nat) h (l : ref) :
  (fuel ≤ fuel')%nat → isTree fuel h l = true →
  isTree fuel' h l = true ∧ preorder fuel' h l = preorder fuel h l.
Proof.
  intros Hle Ht. induction Hle as [|fuel' _ [IH1 IH2]]; [done|].
  destruct (isTree_S fuel' h l IH1) as [H1 H2]. split; [done|congruence].
Qed.

(** A tree of a store is the same tree in a store that has more objects. *)
Lemma isTree_subseteq (fuel : nat) h h' : ∀ l,
  h ⊆ h' → isTree fuel h l = true →
  isTree fuel h' l = true ∧ preorder fuel h' l = preorder fuel h l.
Proof.
  intros l Hsub. revert l.
  induction fuel as [|fuel IH]; intros l Ht; [discriminate|].
  cbn [isTree preorder] in Ht |- *.
  destruct (h !! l) as [n|] eqn:Hl; [|discriminate].
  rewrite (lookup_weaken _ _ _ _ Hl Hsub).
  destruct (children n) as [cs|]; [|done].
  rewrite forallb_forall in Ht. split.
  - apply forallb_forall. intros c Hc. by apply IH, Ht.
  - f_equal. induction cs as [|c cs IHcs]; [done|]. cbn [flat_map].
    rewrite (proj2 (IH c (Ht c (or_introl eq_refl)))). f_equal.
    apply IHcs. intros x Hx. apply Ht. by right.
Qed.

(** The walk depends on the [children] of the nodes only. *)
Lemma isTree_children (fuel : nat) h h' : ∀ l,
  children <$> h' = children <$> h →
  isTree fuel h' l = isTree fuel h l ∧ preorder fuel h' l = preorder fuel h l.
Proof.
  intros l Heq. revert l. induction fuel as [|fuel IH]; intros l; [done|].
  cbn [isTree preorder].
  assert (children <$> (h' !! l) = children <$> (h !! l)) as Hl
    by (by rewrite <- !lookup_fmap, Heq).
  destruct (h' !! l) as [n'|], (h !! l) as [n|]; simpl in Hl; try done.
  injection Hl as ->. destruct (children n) as [cs|]; [|done]. split.
  - induction cs as [|c cs IHcs]; [done|]. cbn [forallb].
    by rewrite (proj1 (IH c)), IHcs.
  - f_equal. induction cs as [|c cs IHcs]; [done|]. cbn [flat_map].
    by rewrite (proj2 (IH c)), IHcs.
Qed.

End TreeMore.

(** ** findRootNode *)

Section FindRootNode.

Context {Hue : Type}.
Implicit Types (σ : @Store Hue) (this : @TreemapViewer Hue).

Lemma findByName_spec (name : string) σ (rootNodes : list ref) : ∀ cs,
  Forall2 (λ r c, containers σ !! r = Some c) rootNodes cs →
  ∃ found, findByName name σ rootNodes = Ok found ∧
           firstNamed name rootNodes cs found.
Proof.
  induction rootNodes as [|r rest IH]; intros cs Hcs.
  - inversion Hcs; subst. exists None. split; [done|].
    intros c Hc. by apply not_elem_of_nil in Hc.
  - inversion Hcs as [|? c ? cs' Hc Hrest]; subst.
    cbn [findByName]. unfold readContainer. rewrite Hc.
    cbn [mbind Result_bind]. case_decide as Hname.
    + exists (Some r). split; [done|]. exists 0%nat, c.
      split_and!; [done..|]. intros j c' Hj. lia.
    + destruct (IH cs' Hrest) as (found & Hfound & Hspec).
      exists found. split; [done|]. destruct found as [r'|]; simpl in *.
      * destruct Hspec as (i & c' & Hi & Hci & Hn & Hfirst).
        exists (S i), c'. split_and!; [done..|].
        intros [|j] c'' Hj Hcj; simpl in Hcj; [congruence|].
        apply (Hfirst j); [lia|done].
      * intros c' [->|Hc']%elem_of_cons; [done|by apply Hspec].
Qed.

Lemma findInGroups_spec (name : string) σ (groups : list (list ref)) : ∀ cs,
  Forall2 (λ r c, containers σ !! r = Some c) (concat groups) cs →
  ∃ found, findInGroups name σ groups = Ok found ∧
           firstNamed name (concat groups) cs found.
Proof.
  induction groups as [|g rest IH]; intros cs Hcs.
  - simpl in Hcs. inversion Hcs; subst. exists None. split; [done|].
    intros c Hc. by apply not_elem_of_nil in Hc.
  - cbn [concat] in Hcs |- *.
    apply Forall2_app_inv_l in Hcs as (cs1 & cs2 & H1 & H2 & ->).
    destruct (findByName_spec name σ g cs1 H1) as (found1 & Hf1 & Hs1).
    cbn [findInGroups]. rewrite Hf1. cbn [mbind Result_bind].
    pose proof (Forall2_length _ _ _ H1) as Hlen.
    destruct found1 as [r|]; simpl in Hs1.
    + exists (Some r). split; [done|].
      destruct Hs1 as (i & c & Hi & Hci & Hn & Hfirst).
      exists i, c. split_and!; [|by apply lookup_app_l_Some|done|].
      * by apply lookup_app_l_Some.
      * intros j c' Hj Hcj. apply (Hfirst j); [done|].
        rewrite lookup_app_l in Hcj; [done|].
        apply lookup_lt_Some in Hci. lia.
    + destruct (IH cs2 H2) as (found & Hfound & Hspec).
      exists found. split; [done|]. destruct found as [r|]; simpl in *.
      * destruct Hspec as (i & c & Hi & Hci & Hn & Hfirst).
        exists (length g + i)%nat, c. split_and!; [| |done|].
        -- rewrite lookup_app_r by lia. by replace (length g + i - length g)%nat with i by lia.
        -- rewrite lookup_app_r by lia. by replace (length g + i - length cs1)%nat with i by lia.
        -- intros j c' Hj Hcj.
           destruct (decide (j < length cs1)%nat) as [Hlt|Hge].
           ++ rewrite lookup_app_l in Hcj by done.
              apply Hs1. by eapply list_elem_of_lookup_2.
           ++ rewrite lookup_app_r in Hcj by lia.
              apply (Hfirst (j - length cs1)%nat); [lia|done].
      * intros c [Hc|Hc]%elem_of_app; [by apply Hs1|by apply Hspec].
Qed.

(** X1.  [findRootNode] returns the first container, in the order of the
    groups and of their arrays, whose name is the one asked for, and
    [undefined] exactly when no container has that name. *)
Theorem findRootNode_first this (name : string) σ (cs : list RootNodeContainer) :
  mapM (λ r, containers σ !! r) (allRootNodes this) = Some cs →
  ∃ found,
    findRootNode this name σ = Ok found ∧
    match found with
    | Some rootNode =>
        ∃ i c, allRootNodes this !! i = Some rootNode ∧
               containers σ !! rootNode = Some c ∧ containerName c = name ∧
               ∀ j r' c', (j < i)%nat → allRootNodes this !! j = Some r' →
                          containers σ !! r' = Some c' → containerName c' ≠ name
    | None =>
        ∀ r c, r ∈ allRootNodes this → containers σ !! r = Some c →
               containerName c ≠ name
    end.
Proof.
  intros Hcs%mapM_Some.
  destruct (findInGroups_spec name σ (rootNodesByGroup this).*2 cs Hcs)
    as (found & Hfound & Hspec).
  exists found. split; [exact Hfound|].
  fold (allRootNodes this) in Hspec, Hcs. destruct found as [r|]; simpl in *.
  - destruct Hspec as (i & c & Hi & Hci & Hn & Hfirst).
    pose proof (Forall2_lookup_lr _ _ _ _ _ _ Hcs Hi Hci) as Hc.
    exists i, c. split_and!; [done..|].
    intros j r' c' Hj Hrj Hcj. apply (Hfirst j); [done|].
    destruct (Forall2_lookup_l _ _ _ _ _ Hcs Hrj) as (c'' & Hc'' & Hcr).
    congruence.
  - intros r c [i Hi]%list_elem_of_lookup_1 Hc.
    destruct (Forall2_lookup_l _ _ _ _ _ Hcs Hi) as (c' & Hc' & Hcr).
    apply Hspec. simplify_eq. by eapply list_elem_of_lookup_2.
Qed.

End FindRootNode.

Lemma findRootNode_first_witness :
  findRootNode exampleViewer "https://example.com/b.js" exampleStore
  = Ok (Some 2%positive) ∧
  findRootNode exampleViewer "https://example.com/d.js" exampleStore = Ok None.
Proof.
  destruct (findRootNode_first exampleViewer "https://example.com/b.js"
              exampleStore _ eq_refl) as (found & Hfound & _).
  destruct (findRootNode_first exampleViewer "https://example.com/d.js"
              exampleStore _ eq_refl) as (found' & Hfound' & _).
  split.
  - rewrite Hfound. vm_compute in Hfound. by injection Hfound as <-.
  - rewrite Hfound'. vm_compute in Hfound'. by injection Hfound' as <-.
Defined.

(** ** The map of the constructor when nodes are shared *)

Section RegistrationMore.

Context {Hue : Type} (COLOR_HUES : list Hue).
Implicit Types (σ : @Store Hue) (this : @TreemapViewer Hue) (m : gmap ref ref).

(** A node is mapped to the last container whose tree has it. *)
Lemma registered_last (fuel : nat) σ (rootNodes : list ref) : ∀ m i rootNode x,
  rootNodes !! i = Some rootNode → x ∈ nodesOfRootNode fuel σ rootNode →
  (∀ j r', (i < j)%nat → rootNodes !! j = Some r' →
           x ∉ nodesOfRootNode fuel σ r') →
  registered fuel σ rootNodes m !! x = Some rootNode.
Proof.
  induction rootNodes as [|r rest IH]; intros m i rootNode x Hi Hx Hlater;
    [done|].
  unfold registered. cbn [foldl].
  fold (registered fuel σ rest (setAll r (nodesOfRootNode fuel σ r) m)).
  destruct i as [|i]; simpl in Hi.
  - injection Hi as ->. rewrite registered_notin.
    + rewrite setAll_lookup, decide_True; done.
    + intros (r' & [j Hj]%list_elem_of_lookup_1 & Hin)%allNodes_elem.
      apply (Hlater (S j) r'); [lia|done|done].
  - apply (IH _ i); [done..|].
    intros j r' Hj Hr'. apply (Hlater (S j) r'); [lia|done].
Qed.

(** X2.  The constructor leaves the store as it is, and its map holds
    exactly the nodes of the trees of the containers: a node is mapped to a
    container whose tree has it, and when several trees have it, to the last
    of them. *)
Theorem constructor_fields_map (fuel : nat) σ (rootNodes : list ref)
    (requestedUrl : string) :
  forallb (holdsTree fuel σ) rootNodes = true →
  ∃ this,
    constructor_fields COLOR_HUES fuel rootNodes requestedUrl σ = Ok (σ, this) ∧
    (∀ l, nodeToRootNodeMap this !! l = None ↔ l ∉ allNodes fuel σ rootNodes) ∧
    (∀ l rootNode, nodeToRootNodeMap this !! l = Some rootNode →
       rootNode ∈ rootNodes ∧ l ∈ nodesOfRootNode fuel σ rootNode ∧
       is_Some (nodes σ !! l)) ∧
    (∀ i rootNode l,
       rootNodes !! i = Some rootNode → l ∈ nodesOfRootNode fuel σ rootNode →
       (∀ j r', (i < j)%nat → rootNodes !! j = Some r' →
                l ∉ nodesOfRootNode fuel σ r') →
       nodeToRootNodeMap this !! l = Some rootNode).
Proof.
  intros Hts. eexists. split; [by apply constructor_fields_spec|].
  cbn [nodeToRootNodeMap].
  assert (∀ l rootNode, registered fuel σ rootNodes ∅ !! l = Some rootNode →
            rootNode ∈ rootNodes ∧ l ∈ nodesOfRootNode fuel σ rootNode ∧
            is_Some (nodes σ !! l)) as Hval.
  { intros l r [Hl|[Hr Hl]]%registered_values;
      [by rewrite lookup_empty in Hl|].
    split_and!; [done..|]. eapply allNodes_valid; [done|].
    apply allNodes_elem. eauto. }
  split_and!.
  - intros l. split.
    + intros Hnone (r & [i Hi]%list_elem_of_lookup_1 & Hl)%allNodes_elem.
      (* the last container whose tree has [l] *)
      assert (∃ r', registered fuel σ rootNodes ∅ !! l = Some r') as [r' Hr'];
        [|congruence].
      clear Hnone Hval Hts. revert i r Hi Hl. generalize (∅ : gmap ref ref).
      induction rootNodes as [|r0 rest IH]; intros m i r Hi Hl; [done|].
      unfold registered. cbn [foldl].
      fold (registered fuel σ rest (setAll r0 (nodesOfRootNode fuel σ r0) m)).
      destruct (decide (l ∈ allNodes fuel σ rest)) as [Hin|Hnin].
      * apply allNodes_elem in Hin as (r1 & [j Hj]%list_elem_of_lookup_1 & Hl1).
        by eapply IH.
      * rewrite registered_notin by done. rewrite setAll_lookup.
        destruct i as [|i]; simpl in Hi.
        -- injection Hi as ->. rewrite decide_True by done. eauto.
        -- exfalso. apply Hnin, allNodes_elem. exists r.
           split; [by eapply list_elem_of_lookup_2|done].
    + intros Hl. rewrite registered_notin by done. apply lookup_empty.
  - exact Hval.
  - intros i r l Hi Hl Hlater. by eapply registered_last.
Qed.

End RegistrationMore.

Lemma constructor_fields_map_witness :
  ∃ this,
    constructor_fields examplePalette 1 [1%positive; 2%positive] "" sharedStore
    = Ok (sharedStore, this) ∧
    nodeToRootNodeMap this !! 1%positive = Some 2%positive.
Proof.
  destruct (constructor_fields_map examplePalette 1 sharedStore
              [1%positive; 2%positive] "" eq_refl)
    as (this & Hctor & _ & _ & Hlast).
  exists this. split; [exact Hctor|].
  apply (Hlast 1%nat 2%positive 1%positive); [reflexivity|compute_done|].
  intros [|[|j]] r' Hj Hr'; try lia; discriminate.
Defined.

(** ** More on createRootNodeForGroup *)

Section AggregationMore.

Context {Hue : Type}.
Implicit Types (σ : @Store Hue) (this : @TreemapViewer Hue).

(** X3.  A second call ([createHeader] calls once, [show] again) makes a
    root with the same name and byte counts at another new reference.  A
    child that is a container's own node is the same object in both roots; a
    wrapper is made anew, with the same fields. *)
Theorem createRootNodeForGroup_again this σ (rootNodes : list ref)
    (ns : list Node) :
  lookupGroup "scripts" (rootNodesByGroup this) = Some rootNodes →
  mapM (rootNodeOf σ) rootNodes = Some ns →
  ∃ root1 σ1 root2 σ2 r1 r2 cs1 cs2,
    createRootNodeForGroup this "scripts" σ = Ok (root1, σ1) ∧
    createRootNodeForGroup this "scripts" σ1 = Ok (root2, σ2) ∧
    nodes σ2 !! root1 = Some r1 ∧ nodes σ2 !! root2 = Some r2 ∧
    root1 ≠ root2 ∧
    name r2 = name r1 ∧ resourceBytes r2 = resourceBytes r1 ∧
    unusedBytes r2 = unusedBytes r1 ∧
    children r1 = Some cs1 ∧ children r2 = Some cs2 ∧
    length cs1 = length rootNodes ∧ length cs2 = length rootNodes ∧
    ∀ i c1 c2, cs1 !! i = Some c1 → cs2 !! i = Some c2 →
      (c1 = c2 ∧ c1 ∈ dom (nodes σ)) ∨
      (c1 ≠ c2 ∧ (c1 ∉ dom (nodes σ)) ∧ (c2 ∉ dom (nodes σ1)) ∧
       nodes σ2 !! c1 = nodes σ2 !! c2).
Proof.
  intros Hg Hns.
  destruct (createRootNodeForGroup_spec this σ rootNodes ns Hg Hns)
    as (root1 & σ1 & cs1 & Hcall1 & Hext1 & Hfresh1 & Hroot1 & Hcs1).
  assert (mapM (rootNodeOf σ1) rootNodes = Some ns) as Hns1.
  { apply mapM_Some. apply mapM_Some in Hns.
    eapply Forall2_impl; [exact Hns|]. intros ???.
    by eapply rootNodeOf_extends. }
  destruct (createRootNodeForGroup_spec this σ1 rootNodes ns Hg Hns1)
    as (root2 & σ2 & cs2 & Hcall2 & Hext2 & Hfresh2 & Hroot2 & Hcs2).
  eexists root1, σ1, root2, σ2, _, _, cs1, cs2.
  split; [exact Hcall1|]. split; [exact Hcall2|].
  split; [by eapply extends_lookup|]. split; [exact Hroot2|].
  split.
  { intros ->. apply Hfresh2, elem_of_dom. eauto. }
  do 5 (split; [done|]).
  split; [symmetry; by eapply Forall2_length|].
  split; [symmetry; by eapply Forall2_length|].
  intros i c1 c2 Hi1 Hi2.
  destruct (Forall2_lookup_r _ _ _ _ _ Hcs1 Hi1)
    as (r & Hr & c & n & Hc & Hn & Hshape1).
  destruct (Forall2_lookup_lr _ _ _ _ _ _ Hcs2 Hr Hi2)
    as (c' & n' & Hc' & Hn' & Hshape2).
  assert (c' = c) as -> by (destruct Hext1 as (_ & E & _); congruence).
  assert (n' = n) as ->
    by (pose proof (extends_lookup _ _ _ _ Hext1 Hn); congruence).
  destruct (children n).
  - right. destruct Hshape1 as [Hf1 Hw1], Hshape2 as [Hf2 Hw2].
    split_and!; [|done|done|].
    + intros ->. apply Hf2, elem_of_dom. eauto.
    + rewrite (extends_lookup _ _ _ _ Hext2 Hw1). done.
  - left. subst. split; [done|]. apply elem_of_dom. eauto.
Qed.

Lemma mapRootNodes_other (group : string) σ (rootNodes : list ref) : ∀ cs,
  group ≠ "scripts" →
  Forall2 (λ r c, containers σ !! r = Some c ∧ is_Some (nodes σ !! node c))
          rootNodes cs →
  mapRootNodes group rootNodes σ = Ok (node <$> cs, σ).
Proof.
  intros cs Hg. revert cs.
  induction rootNodes as [|r rest IH]; intros cs Hcs.
  - by inversion Hcs.
  - inversion Hcs as [|? c ? cs' [Hc [n Hn]] Hrest]; subst.
    cbn [mapRootNodes]. unfold wrapRootNode, readContainer, readNode.
    rewrite Hc. cbn [mbind Result_bind]. rewrite Hn. cbn [mbind Result_bind].
    rewrite (bool_decide_eq_false_2 (group = "scripts")) by done.
    cbn [andb mbind Result_bind snd fst]. rewrite (IH cs' Hrest). done.
Qed.

(** X4.  Only the group [scripts] is wrapped: for any other group of the
    viewer the call makes one object, the root, whose children are the
    containers' own nodes in order, also where these have children.  Its
    byte counts are the sums when the byte counts of the containers' nodes
    are in the range in which the additions are exact.  For a group the
    viewer does not have, the call throws a [TypeError]. *)
Theorem createRootNodeForGroup_other_group this (group : string) σ :
  group ≠ "scripts" →
  (lookupGroup group (rootNodesByGroup this) = None →
   createRootNodeForGroup this group σ = Throw TypeError) ∧
  (∀ rootNodes cs ns,
     lookupGroup group (rootNodesByGroup this) = Some rootNodes →
     mapM (λ r, containers σ !! r) rootNodes = Some cs →
     mapM (λ c, nodes σ !! node c) cs = Some ns →
     ∃ rb ub,
       createRootNodeForGroup this group σ
       = Ok (allocNode σ
               {| name := documentUrl this;
                  resourceBytes := rb;
                  unusedBytes := Some ub;
                  children := Some (node <$> cs);
                  domElement := None |}) ∧
       (safeBytes (resourceBytes <$> ns) → rb = sumZ (resourceBytes <$> ns)) ∧
       (safeBytes ((λ n, default 0 (unusedBytes n)) <$> ns) →
        ub = sumZ ((λ n, default 0 (unusedBytes n)) <$> ns))).
Proof.
  intros Hg. split.
  - intros Hnone. unfold createRootNodeForGroup. by rewrite Hnone.
  - intros rootNodes cs ns Hsome Hcs%mapM_Some Hns%mapM_Some.
    unfold createRootNodeForGroup. rewrite Hsome.
    rewrite (mapRootNodes_other group σ rootNodes cs Hg).
    + cbn [mbind Result_bind fst snd].
      assert (Forall2 (λ child m, nodes σ !! child = Some m) (node <$> cs) ns)
        as Hms by (by apply Forall2_fmap_l).
      rewrite (reduce_spec resourceBytes σ _ ns 0 Hms).
      rewrite (reduce_spec (λ n, default 0 (unusedBytes n)) σ _ ns 0 Hms).
      cbn [mbind Result_bind]. eexists _, _. split; [reflexivity|].
      split; apply jsSum_exact.
    + clear Hsome. revert ns Hns.
      induction Hcs as [|r c rest cs' Hc _ IH]; intros ns Hns; [constructor|].
      inversion Hns as [|? n ? ns' Hn Hrest]; subst.
      constructor; [eauto|by eapply IH].
Qed.

End AggregationMore.

Lemma createRootNodeForGroup_again_witness :
  ∃ root1 σ1 root2 σ2,
    createRootNodeForGroup exampleViewer "scripts" exampleStore
    = Ok (root1, σ1) ∧
    createRootNodeForGroup exampleViewer "scripts" σ1 = Ok (root2, σ2) ∧
    root1 ≠ root2 ∧
    resourceBytes <$> nodes σ2 !! root2 = resourceBytes <$> nodes σ2 !! root1.
Proof.
  destruct (createRootNodeForGroup_again exampleViewer exampleStore
              exampleRootNodes exampleNodes eq_refl eq_refl)
    as (root1 & σ1 & root2 & σ2 & r1 & r2 & cs1 & cs2 & H1 & H2 & Hr1 & Hr2
        & Hne & _ & Hrb & _).
  exists root1, σ1, root2, σ2. split_and!; [done..|].
  rewrite Hr1, Hr2. simpl. by rewrite Hrb.
Defined.

Lemma createRootNodeForGroup_other_group_witness :
  ∃ root σ',
    createRootNodeForGroup twoGroupViewer "other" exampleStore = Ok (root, σ') ∧
    children <$> nodes σ' !! root = Some (Some [2%positive]) ∧
    createRootNodeForGroup twoGroupViewer "fonts" exampleStore = Throw TypeError.
Proof.
  destruct (createRootNodeForGroup_other_group twoGroupViewer "other"
              exampleStore ltac:(done)) as [_ Hother].
  destruct (createRootNodeForGroup_other_group twoGroupViewer "fonts"
              exampleStore ltac:(done)) as [Hnone _].
  destruct (Hother _ _ _ eq_refl eq_refl eq_refl) as (rb & ub & H & _).
  match type of H with
  | _ = Ok (allocNode ?s ?x) => exists (allocNode s x).1, (allocNode s x).2
  end.
  split; [exact H|]. split; [|exact (Hnone eq_refl)].
  rewrite allocNode_lookup. reflexivity.
Defined.

(** ** The view modes in [show] *)

Section ViewModesMore.

Context {Hue : Type}.
Implicit Types (σ : @Store Hue) (this : @TreemapViewer Hue).

Lemma holdsTree_extends (fuel fuel' : nat) σ σ' (rootNode : ref) :
  extends σ σ' → (fuel ≤ fuel')%nat → holdsTree fuel σ rootNode = true →
  holdsTree fuel' σ' rootNode = true ∧
  nodesOfRootNode fuel' σ' rootNode = nodesOfRootNode fuel σ rootNode.
Proof.
  intros (Hsub & Hc & _) Hle. unfold holdsTree, nodesOfRootNode. rewrite Hc.
  destruct (containers σ !! rootNode) as [c|]; [|done]. intros Ht.
  destruct (isTree_subseteq fuel _ _ (node c) Hsub Ht) as [Ht' Hp'].
  destruct (isTree_le fuel fuel' _ (node c) Hle Ht') as [Ht'' Hp''].
  split; [done|congruence].
Qed.

Lemma holdsTree_all_extends (fuel fuel' : nat) σ σ' (rootNodes : list ref) :
  extends σ σ' → (fuel ≤ fuel')%nat →
  forallb (holdsTree fuel σ) rootNodes = true →
  forallb (holdsTree fuel' σ') rootNodes = true ∧
  allNodes fuel' σ' rootNodes = allNodes fuel σ rootNodes.
Proof.
  intros Hext Hle. unfold allNodes.
  induction rootNodes as [|r rest IH]; intros Hts; [done|].
  cbn [forallb flat_map] in *. apply andb_true_iff in Hts as [Hr Hrest].
  destruct (holdsTree_extends fuel fuel' σ σ' r Hext Hle Hr) as [-> ->].
  destruct (IH Hrest) as [-> ->]. done.
Qed.

Lemma leafTotalFrom_ext (h h' : gmap ref Node) (ls : list ref) : ∀ bytes,
  (∀ x, x ∈ ls → h' !! x = h !! x) →
  leafTotalFrom h' bytes ls = leafTotalFrom h bytes ls.
Proof.
  unfold leafTotalFrom. induction ls as [|l ls IH]; intros bytes Hls; [done|].
  cbn [foldl]. unfold addLeafAt at 2 4.
  rewrite (Hls l) by apply list_elem_of_here.
  apply IH. intros x Hx. by apply Hls, list_elem_of_further.
Qed.

Lemma leafTotalFrom_extends (fuel : nat) σ σ' (rootNodes : list ref)
    (bytes : Z) :
  extends σ σ' → forallb (holdsTree fuel σ) rootNodes = true →
  leafTotalFrom (nodes σ') bytes (allNodes fuel σ rootNodes)
  = leafTotalFrom (nodes σ) bytes (allNodes fuel σ rootNodes).
Proof.
  intros Hext Hts. apply leafTotalFrom_ext. intros x Hx.
  destruct (allNodes_valid fuel σ rootNodes x Hts Hx) as [n Hn].
  by rewrite Hn, (extends_lookup _ _ _ _ Hext Hn).
Qed.

Lemma renderViewModeOptions_extends (fuel fuel' : nat) σ σ'
    (rootNodes : list ref) :
  extends σ σ' → (fuel ≤ fuel')%nat →
  forallb (holdsTree fuel σ) rootNodes = true →
  renderViewModeOptions fuel' rootNodes σ'
  = renderViewModeOptions fuel rootNodes σ.
Proof.
  intros Hext Hle Hts.
  destruct (holdsTree_all_extends fuel fuel' σ σ' rootNodes Hext Hle Hts)
    as [Hts' Hall].
  rewrite !renderViewModeOptions_spec by done.
  by rewrite Hall, (leafTotalFrom_extends fuel σ σ' rootNodes 0 Hext Hts).
Qed.

(** X5.  The byte count of the "All" view mode is the same whether it is
    taken before the root is made or, as [show] does, after it: the objects
    [createRootNodeForGroup] adds are not counted.  Nor does it depend on the
    depth the call stack may reach, once the trees fit. *)
Theorem renderViewModeOptions_after_root (fuel fuel' : nat) this σ
    (rootNodes : list ref) :
  lookupGroup "scripts" (rootNodesByGroup this) = Some rootNodes →
  forallb (holdsTree fuel σ) rootNodes = true →
  (fuel ≤ fuel')%nat →
  ∃ root σ' bytes,
    createRootNodeForGroup this "scripts" σ = Ok (root, σ') ∧
    renderViewModeOptions fuel rootNodes σ = Ok [("All", bytes)] ∧
    renderViewModeOptions fuel' rootNodes σ' = Ok [("All", bytes)].
Proof.
  intros Hg Hts Hle.
  destruct (holdsTree_rootNodes fuel σ rootNodes Hts) as [ns Hns].
  destruct (createRootNodeForGroup_spec this σ rootNodes ns Hg Hns)
    as (root & σ' & cs & Hcall & Hext & _).
  exists root, σ'. eexists. split; [exact Hcall|].
  rewrite (renderViewModeOptions_extends fuel fuel' σ σ' rootNodes Hext Hle Hts).
  split; by apply renderViewModeOptions_spec.
Qed.

End ViewModesMore.

Lemma renderViewModeOptions_after_root_witness :
  ∃ root σ',
    createRootNodeForGroup exampleViewer "scripts" exampleStore = Ok (root, σ') ∧
    renderViewModeOptions 2 exampleRootNodes exampleStore = Ok [("All", 35)] ∧
    renderViewModeOptions 4 exampleRootNodes σ' = Ok [("All", 35)].
Proof.
  destruct (renderViewModeOptions_after_root 2 4 exampleViewer exampleStore
              exampleRootNodes eq_refl eq_refl ltac:(lia))
    as (root & σ' & bytes & Hcall & Hbefore & Hafter).
  assert (bytes = 35) as ->.
  { vm_compute in Hbefore. by injection Hbefore as <-. }
  exists root, σ'. by split_and!.
Defined.

(** ** The walk with a callback that changes nodes *)

Section WalkMore.

Context {Hue : Type} {T : Type}.
Implicit Types (w : @Store Hue * T).

Variable fn : ref → @Store Hue * T → Result (@Store Hue * T).

(** The callback may change the nodes, but not their [children]. *)
Hypothesis fn_children : ∀ l w w',
  fn l w = Ok w' → children <$> nodes w'.1 = children <$> nodes w.1.

Lemma forEachM_children (ls : list ref) w w' :
  forEachM fn ls w = Ok w' → children <$> nodes w'.1 = children <$> nodes w.1.
Proof.
  revert w. induction ls as [|l ls IH]; intros w; simpl.
  - by intros [= <-].
  - destruct (fn l w) as [w1|e] eqn:E; simpl; [|done].
    intros H. rewrite (IH _ H). by eapply fn_children.
Qed.

Lemma dfs_preorder_children (fuel : nat) : ∀ l w,
  isTree fuel (nodes w.1) l = true →
  dfs fuel fn l w = forEachM fn (preorder fuel (nodes w.1) l) w.
Proof.
  induction fuel as [|fuel IH]; intros l w Ht; [discriminate|].
  cbn [dfs preorder forEachM isTree] in *.
  destruct (fn l w) as [w1|e] eqn:E; cbn [mbind Result_bind]; [|done].
  pose proof (fn_children _ _ _ E) as Hn. unfold readNode.
  assert (children <$> (nodes w1.1 !! l) = children <$> (nodes w.1 !! l)) as Hl
    by (by rewrite <- !lookup_fmap, Hn).
  destruct (nodes w.1 !! l) as [n|]; [|discriminate].
  destruct (nodes w1.1 !! l) as [n1|]; [|discriminate].
  injection Hl as Hl. cbn [mbind Result_bind]. rewrite Hl.
  destruct (children n) as [cs|]; [|done].
  clear E Hl. revert w1 Hn.
  induction cs as [|c cs IHcs]; intros w1 Hn; [done|].
  cbn [forallb] in Ht. apply andb_true_iff in Ht as [Hc Hcs].
  cbn [forEachM flat_map]. rewrite forEachM_app.
  destruct (isTree_children fuel _ _ c Hn) as [Ht1 Hp1].
  rewrite (IH c w1) by (by rewrite Ht1). rewrite Hp1.
  destruct (forEachM fn (preorder fuel (nodes w.1) c) w1) as [w2|e] eqn:E2;
    cbn [mbind Result_bind]; [|done].
  apply IHcs; [done|]. rewrite (forEachM_children _ _ _ E2). done.
Qed.

End WalkMore.

(** ** show *)

Section Show.

Context {Hue : Type}.
Implicit Types (σ : @Store Hue) (this : @TreemapViewer Hue).

Lemma orZero_id (z : Z) : orZero z = z.
Proof. unfold orZero. destruct (Z.eqb_spec z 0); congruence. Qed.

Lemma prepareNode_children (l : ref) (w w' : @Store Hue * gmap ref Z) :
  prepareNode l w = Ok w' → children <$> nodes w'.1 = children <$> nodes w.1.
Proof.
  unfold prepareNode, readNode.
  destruct (nodes w.1 !! l) as [n|] eqn:Hl; simpl; [|done].
  intros [= <-]. simpl. rewrite fmap_insert. apply insert_id.
  by rewrite lookup_fmap, Hl.
Qed.

Lemma prepareNode_valid (l : ref) σ (sz : gmap ref Z) (n : Node) :
  nodes σ !! l = Some n →
  prepareNode l (σ, sz)
  = Ok ({| nodes := <[l := withoutDom n]> (nodes σ);
           containers := containers σ; styles := styles σ |},
        <[l := resourceBytes n]> sz).
Proof.
  intros Hn. unfold prepareNode, readNode. cbn [fst snd]. rewrite Hn.
  cbn [mbind Result_bind]. by rewrite orZero_id.
Qed.

(** The walk of [show] over a list of nodes. *)
Lemma forEachM_prepareNode (ls : list ref) : ∀ σ (sz : gmap ref Z),
  (∀ l, l ∈ ls → is_Some (nodes σ !! l)) →
  ∃ σ' sz',
    forEachM prepareNode ls (σ, sz) = Ok (σ', sz') ∧
    containers σ' = containers σ ∧ styles σ' = styles σ ∧
    ∀ x,
      nodes σ' !! x = (if decide (x ∈ ls) then withoutDom <$> nodes σ !! x
                       else nodes σ !! x) ∧
      sz' !! x = (if decide (x ∈ ls) then resourceBytes <$> nodes σ !! x
                  else sz !! x).
Proof.
  induction ls as [|l ls IH]; intros σ sz Hv.
  - exists σ, sz. split_and!; [done..|]. intros x.
    rewrite decide_False by apply not_elem_of_nil. done.
  - destruct (Hv l) as [n Hn]; [apply list_elem_of_here|].
    cbn [forEachM]. rewrite (prepareNode_valid l σ sz n Hn).
    cbn [mbind Result_bind].
    set (σ1 := {| nodes := <[l := withoutDom n]> (nodes σ);
                  containers := containers σ; styles := styles σ |}).
    destruct (IH σ1 (<[l := resourceBytes n]> sz))
      as (σ' & sz' & Hrun & Hc & Hs & Hx).
    { intros x Hin. simpl. rewrite lookup_insert. case_decide; [by eexists|].
      apply Hv. by apply list_elem_of_further. }
    exists σ', sz'. split_and!; [done..|]. intros x.
    destruct (Hx x) as [Hnx Hsx]. rewrite Hnx, Hsx. simpl.
    rewrite !lookup_insert.
    clear Hx Hnx Hsx Hrun IH Hv.
    repeat case_decide; subst; rewrite ?Hn; simpl; try done; exfalso;
      match goal with
      | H : _ ∉ _ :: _ |- _ =>
          apply H; first [apply list_elem_of_here|by apply list_elem_of_further]
      | H : _ ∈ _ :: _ |- _ => apply elem_of_cons in H as [?|?]; by subst
      end.
Qed.

(** The tree below the root of [createRootNodeForGroup]: two levels more
    than the trees of the containers; its nodes are the root, the children
    of the root and the nodes of the containers' trees. *)
Lemma root_isTree (fuel : nat) σ σ' (rootNodes cs : list ref) (root : ref)
    (r : Node) :
  forallb (holdsTree fuel σ) rootNodes = true →
  extends σ σ' → Forall2 (childOf σ σ') rootNodes cs →
  nodes σ' !! root = Some r → children r = Some cs →
  isTree (S (S fuel)) (nodes σ') root = true ∧
  ∀ x, x ∈ preorder (S (S fuel)) (nodes σ') root ↔
       x = root ∨ x ∈ cs ∨ x ∈ allNodes fuel σ rootNodes.
Proof.
  intros Hts Hext Hcs Hroot Hch.
  assert (∀ rootNode child, childOf σ σ' rootNode child →
            holdsTree fuel σ rootNode = true →
            isTree (S fuel) (nodes σ') child = true ∧
            ∀ x, x ∈ preorder (S fuel) (nodes σ') child ↔
                 x = child ∨ x ∈ nodesOfRootNode fuel σ rootNode) as Hchild.
  { intros rootNode child (c & n & Hc & Hn & Hshape) Ht.
    unfold holdsTree, nodesOfRootNode in *. rewrite Hc in *.
    destruct (isTree_subseteq fuel _ _ (node c) (proj1 Hext) Ht) as [Ht' Hp'].
    destruct (children n) as [ks|] eqn:Hks.
    - destruct Hshape as [_ Hw]. cbn [isTree preorder]. rewrite Hw. simpl.
      rewrite Ht', Hp', app_nil_r. split; [done|]. intros x.
      by rewrite elem_of_cons.
    - subst child. destruct (isTree_S fuel _ _ Ht') as [-> ->]. rewrite Hp'.
      split; [done|]. intros x. split; [by right|]. intros [->|?]; [|done].
      destruct fuel; [discriminate|]. apply list_elem_of_here. }
  cbn [isTree preorder]. rewrite Hroot, Hch.
  rewrite forallb_forall in Hts. split.
  - apply forallb_forall. intros child [i Hi]%list_elem_of_In%list_elem_of_lookup_1.
    destruct (Forall2_lookup_r _ _ _ _ _ Hcs Hi) as (rootNode & Hr & Hco).
    apply (Hchild rootNode child Hco), Hts, list_elem_of_In.
    by eapply list_elem_of_lookup_2.
  - intros x. rewrite elem_of_cons. apply or_iff_compat_l.
    rewrite list_elem_of_In, in_flat_map. split.
    + intros (child & [i Hi]%list_elem_of_In%list_elem_of_lookup_1 & Hx).
      destruct (Forall2_lookup_r _ _ _ _ _ Hcs Hi) as (rootNode & Hr & Hco).
      assert (rootNode ∈ rootNodes) as Hin by (by eapply list_elem_of_lookup_2).
      assert (holdsTree fuel σ rootNode = true) as Ht
        by (by apply Hts, list_elem_of_In).
      apply list_elem_of_In in Hx.
      destruct (proj1 (proj2 (Hchild rootNode child Hco Ht) x) Hx)
        as [->|Hx'].
      * left. by eapply list_elem_of_lookup_2.
      * right. apply allNodes_elem. eauto.
    + intros [[i Hi]%list_elem_of_lookup_1|(rootNode & Hin & Hx)%allNodes_elem].
      * destruct (Forall2_lookup_r _ _ _ _ _ Hcs Hi) as (rootNode & Hr & Hco).
        assert (holdsTree fuel σ rootNode = true) as Ht
          by (by eapply Hts, list_elem_of_In, list_elem_of_lookup_2).
        exists x. split; [by eapply list_elem_of_In, list_elem_of_lookup_2|].
        apply list_elem_of_In, (proj2 (Hchild rootNode x Hco Ht)). by left.
      * assert (holdsTree fuel σ rootNode = true) as Ht
          by (by apply Hts, list_elem_of_In).
        apply list_elem_of_lookup_1 in Hin as [i Hi].
        destruct (Forall2_lookup_l _ _ _ _ _ Hcs Hi) as (child & Hc & Hco).
        exists child. split; [by eapply list_elem_of_In, list_elem_of_lookup_2|].
        apply list_elem_of_In, (proj2 (Hchild rootNode child Hco Ht)). by right.
Qed.

(** The result of [show], from the results of its steps. *)
Lemma show_data_run (fuel : nat) this (sizes0 sz : gmap ref Z) σ σ1 σ2
    (rootNodes : list ref) (root : ref) :
  lookupGroup "scripts" (rootNodesByGroup this) = Some rootNodes →
  forallb (holdsTree fuel σ) rootNodes = true →
  createRootNodeForGroup this "scripts" σ = Ok (root, σ1) → extends σ σ1 →
  isTree (S (S fuel)) (nodes σ1) root = true →
  forEachM prepareNode (preorder (S (S fuel)) (nodes σ1) root) (σ1, sizes0)
  = Ok (σ2, sz) →
  show_data (S (S fuel)) this sizes0 σ
  = Ok {| shownStore := σ2;
          shownViewer :=
            {| nodeToRootNodeMap := nodeToRootNodeMap this;
               rootNodesByGroup := rootNodesByGroup this;
               currentRootNode := Some root;
               documentUrl := documentUrl this;
               getHue := getHue this |};
          viewModes :=
            [("All", leafTotalFrom (nodes σ) 0 (allNodes fuel σ rootNodes))];
          sizes := sz |}.
Proof.
  intros Hg Hts Hcall Hext Ht Hrun.
  unfold show_data. rewrite Hcall. cbn [mbind Result_bind fst snd]. rewrite Hg.
  rewrite (renderViewModeOptions_extends fuel (S (S fuel)) σ σ1 rootNodes)
    by (done || lia).
  rewrite (renderViewModeOptions_spec fuel σ rootNodes Hts).
  cbn [mbind Result_bind].
  rewrite (dfs_preorder_children prepareNode prepareNode_children) by done.
  cbn [fst]. rewrite Hrun. done.
Qed.


End Show.


(** ** The header and the view mode *)

Section Header.

Context {Hue : Type}.
Variable formatBytes : Z → string.
Implicit Types (σ : @Store Hue) (this : @TreemapViewer Hue).

Lemma mapM_rootNodeOf_extends σ σ' (rootNodes : list ref) (ns : list Node) :
  extends σ σ' → mapM (rootNodeOf σ) rootNodes = Some ns →
  mapM (rootNodeOf σ') rootNodes = Some ns.
Proof.
  intros Hext Hns. apply mapM_Some. apply mapM_Some in Hns.
  eapply Forall2_impl; [exact Hns|]. intros ???.
  by eapply rootNodeOf_extends.
Qed.

(** The header only reads the containers: its size is the formatted sum of
    the [resourceBytes] of their nodes, as [reduce] computes it, and the root
    it makes for that is the only thing it leaves behind. *)
Lemma createHeader_spec this σ (rootNodes : list ref) (ns : list Node) :
  lookupGroup "scripts" (rootNodesByGroup this) = Some rootNodes →
  mapM (rootNodeOf σ) rootNodes = Some ns →
  ∃ σ1, createHeader formatBytes this σ
        = Ok (σ1, (documentUrl this,
                   formatBytes (jsSum (resourceBytes <$> ns)))) ∧
        extends σ σ1.
Proof.
  intros Hg Hns.
  destruct (createRootNodeForGroup_spec this σ rootNodes ns Hg Hns)
    as (root & σ1 & cs & Hcall & Hext & _ & Hroot & _).
  exists σ1. split; [|done].
  unfold createHeader, readNode. rewrite Hcall. cbn [mbind Result_bind fst snd].
  rewrite Hroot. done.
Qed.

(** X7.  The constructor writes the header and then shows the tree.  When
    every node with children has the sum of its children's bytes, and the
    byte counts of the leaves are non-negative integers with a total of at
    most 2^53 (so that the additions are exact), the size in the header and
    the byte count of the "All" view mode are the same formatted number, and
    it is the [resourceBytes] and the [size] of the root that is handed to
    webtreemap (the total of the captions). *)
Theorem createHeader_show_same_bytes (fuel : nat) this (sizes0 : gmap ref Z) σ
    (rootNodes : list ref) :
  lookupGroup "scripts" (rootNodesByGroup this) = Some rootNodes →
  forallb (holdsConsistentTree fuel σ) rootNodes = true →
  safeBytes (leafBytesAt (nodes σ) <$> allNodes fuel σ rootNodes) →
  ∃ σ1 size sh bytes root r,
    createHeader formatBytes this σ = Ok (σ1, (documentUrl this, size)) ∧
    show_data (S (S fuel)) this sizes0 σ1 = Ok sh ∧
    viewModes sh = [("All", bytes)] ∧
    size = formatBytes bytes ∧
    viewModeBytesText formatBytes bytes = " (" +:+ size +:+ ")" ∧
    currentRootNode (shownViewer sh) = Some root ∧
    nodes (shownStore sh) !! root = Some r ∧
    resourceBytes r = bytes ∧ sizes sh !! root = Some bytes.
Proof.
  intros Hg Hcons Hsafe.
  destruct (consistent_rootNodes fuel σ rootNodes Hcons)
    as (Hts & ns & Hns & Hsum & Hpos).
  destruct (createHeader_spec this σ rootNodes ns Hg Hns) as (σ1 & Hheader & Hext1).
  destruct (holdsTree_all_extends fuel fuel σ σ1 rootNodes Hext1 (le_n _) Hts)
    as [Hts1 Hall].
  pose proof (mapM_rootNodeOf_extends σ σ1 rootNodes ns Hext1 Hns) as Hns1.
  destruct (createRootNodeForGroup_spec this σ1 rootNodes ns Hg Hns1)
    as (root & σ2 & cs & Hcall & Hext2 & _ & Hroot & Hcs).
  destruct (root_isTree fuel σ1 σ2 rootNodes cs root _ Hts1 Hext2 Hcs Hroot
              eq_refl) as [Ht Hvisited].
  destruct (forEachM_prepareNode (preorder (S (S fuel)) (nodes σ2) root) σ2
              sizes0) as (σ3 & sz & Hrun & _ & _ & Hx).
  { intros l Hl. by eapply isTree_preorder_valid. }
  assert (root ∈ preorder (S (S fuel)) (nodes σ2) root) as Hin
    by (apply Hvisited; by left).
  destruct (Hx root) as [Hr3 Hsz].
  rewrite decide_True in Hr3 by done. rewrite decide_True in Hsz by done.
  rewrite Hroot in Hr3, Hsz.
  eexists σ1, _, _, _, root, _.
  split; [exact Hheader|].
  split; [by eapply show_data_run|].
  cbn [viewModes shownViewer shownStore sizes currentRootNode].
  split; [reflexivity|].
  assert (leafTotalFrom (nodes σ1) 0 (allNodes fuel σ1 rootNodes)
          = jsSum (resourceBytes <$> ns)) as Hbytes.
  { rewrite Hall, (leafTotalFrom_extends fuel σ σ1 rootNodes 0 Hext1 Hts).
    rewrite (leafTotal_exact _ _ Hsafe), Hsum. symmetry. apply jsSum_exact.
    destruct Hsafe as [Hleaves Hle]. split; [by apply Hpos|by rewrite <- Hsum]. }
  split; [by rewrite Hbytes|].
  split; [unfold viewModeBytesText; by rewrite Hbytes|].
  split; [done|]. split; [exact Hr3|].
  split; [by rewrite Hbytes|]. rewrite Hsz. simpl. by rewrite Hbytes.
Qed.

End Header.

(** The example: 35 bytes in the header, in the view mode and at the root.
    The formatting is that of a number of bytes with its unit. *)
Lemma createHeader_show_same_bytes_witness :
  ∃ σ1 (sh : @Shown nat),
    createHeader (λ z, pretty z +:+ " B") exampleViewer exampleStore
    = Ok (σ1, ("https://example.com/", "35 B")) ∧
    show_data 4 exampleViewer ∅ σ1 = Ok sh ∧
    viewModes sh = [("All", 35)] ∧
    viewModeBytesText (λ z, pretty z +:+ " B") 35 = " (35 B)".
Proof.
  destruct (createHeader_show_same_bytes (λ z, pretty z +:+ " B") 2
              exampleViewer ∅ exampleStore exampleRootNodes eq_refl eq_refl
              ltac:(safe_bytes))
    as (σ1 & size & sh & bytes & root & r & Hheader & Hshow & Hmodes & Hsize
        & Htext & _).
  vm_compute in Hheader. injection Hheader as <- <-.
  vm_compute in Hshow. injection Hshow as <-.
  injection Hmodes as <-.
  eexists _, _. split; [by vm_compute|]. split; [by vm_compute|]. done.
Defined.

(** ** The colours of a whole pass *)

Section ColoursMore.

Context {Hue : Type}.
Implicit Types (σ : @Store Hue) (this : @TreemapViewer Hue) (h : @Hasher Hue).
Implicit Types (ρ : string → option Hue) (st : gmap ref (Style Hue)).

(** A hue is an entry of the palette. *)
Lemma callHasher_palette key h (hue : Hue) :
  (callHasher key h).1 = Some hue → hue ∈ palette h.
Proof.
  unfold callHasher. destruct (assigned h !! key) as [i|]; simpl.
  - apply list_elem_of_lookup_2.
  - case_decide; simpl; [apply list_elem_of_lookup_2|done].
Qed.

(** A key that was asked for once changes the closure no more. *)
Lemma callHasher_settled key h :
  (callHasher key (callHasher key h).2).2 = (callHasher key h).2.
Proof.
  unfold callHasher. destruct (assigned h !! key) as [i|] eqn:E; simpl.
  - by rewrite E.
  - case_decide as Hlt; simpl.
    + by rewrite lookup_insert_eq.
    + rewrite E. by rewrite decide_False.
Qed.

Lemma callHasher_settled_le key h h' :
  (callHasher key h).2 = h → hasherLe h h' → (callHasher key h').2 = h'.
Proof.
  unfold callHasher. intros Hs (Hp & Hsub & Hfull).
  destruct (assigned h !! key) as [i|] eqn:E.
  - by rewrite (lookup_weaken _ _ _ _ E Hsub).
  - case_decide as Hlt; simpl in Hs.
    + apply (f_equal (λ x, assigned x !! key)) in Hs. simpl in Hs.
      rewrite lookup_insert_eq, E in Hs. done.
    + rewrite Hfull by lia. rewrite E, Hp. by rewrite decide_False.
Qed.

Lemma paintedBy_ext this this' σ σ' ρ (l : ref) :
  nodeToRootNodeMap this' = nodeToRootNodeMap this →
  nodes σ' = nodes σ → containers σ' = containers σ →
  paintedBy this' σ' ρ l = paintedBy this σ ρ l.
Proof.
  intros Hm Hn Hc.
  unfold paintedBy, elementOf, hueKeyOf, readContainer, readNode.
  by rewrite Hm, Hn, Hc.
Qed.

Lemma paintAll_ext this this' σ σ' ρ (ls : list ref) : ∀ st,
  nodeToRootNodeMap this' = nodeToRootNodeMap this →
  nodes σ' = nodes σ → containers σ' = containers σ →
  paintAll this' σ' ρ ls st = paintAll this σ ρ ls st.
Proof.
  intros st Hm Hn Hc. revert st. unfold paintAll.
  induction ls as [|l ls IH]; intros st; [done|]. cbn [foldl].
  by rewrite (paintedBy_ext this this' σ σ' ρ l Hm Hn Hc), IH.
Qed.

(** The style of an element after the writes: the last write to it, or the
    style it had. *)
Lemma paintAll_lookup this σ ρ (ls : list ref) : ∀ st (el : ref),
  paintAll this σ ρ ls st !! el
  = match lastWrite this σ ρ el ls with
    | Some style => Some style
    | None => st !! el
    end.
Proof.
  unfold paintAll. induction ls as [|l ls IH]; intros st el; [done|].
  cbn [foldl lastWrite]. rewrite IH.
  destruct (lastWrite this σ ρ el ls); [done|].
  destruct (paintedBy this σ ρ l) as [[el' style]|]; [|done].
  case_decide as Hel.
  - subst. by rewrite lookup_insert_eq.
  - by rewrite lookup_insert_ne.
Qed.

Lemma paintAll_idemp this σ ρ (ls : list ref) st :
  paintAll this σ ρ ls (paintAll this σ ρ ls st) = paintAll this σ ρ ls st.
Proof.
  apply map_eq. intros el. rewrite !paintAll_lookup.
  by destruct (lastWrite this σ ρ el ls).
Qed.

(** A write to [el] is the write of a node that has it. *)
Lemma lastWrite_Some this σ ρ (el : ref) (ls : list ref) (style : Style Hue) :
  lastWrite this σ ρ el ls = Some style →
  ∃ l key, l ∈ ls ∧ elementOf σ l = Some el ∧ hueKeyOf this σ l = Ok key ∧
           style = colorsOf (ρ key).
Proof.
  induction ls as [|l ls IH]; [done|]. cbn [lastWrite].
  destruct (lastWrite this σ ρ el ls) as [style'|].
  - intros [= <-]. destruct (IH eq_refl) as (x & key & Hx & H).
    exists x, key. split; [by apply list_elem_of_further|done].
  - unfold paintedBy.
    destruct (elementOf σ l) as [el'|] eqn:Hel; [|done].
    destruct (hueKeyOf this σ l) as [key|] eqn:Hkey; [|done].
    case_decide; [|done]. intros [= <-]. subst el'.
    exists l, key. split; [apply list_elem_of_here|done].
Qed.

Lemma lastWrite_None this σ ρ (el : ref) (ls : list ref) :
  (∀ l, l ∈ ls → ∃ key, hueKeyOf this σ l = Ok key) →
  lastWrite this σ ρ el ls = None →
  ∀ l, l ∈ ls → elementOf σ l ≠ Some el.
Proof.
  induction ls as [|l ls IH]; intros Hkeys Hnone x Hx.
  { by apply not_elem_of_nil in Hx. }
  cbn [lastWrite] in Hnone.
  destruct (lastWrite this σ ρ el ls) as [style'|] eqn:Hrest; [done|].
  apply elem_of_cons in Hx as [->|Hx].
  - destruct (Hkeys l) as [key Hkey]; [apply list_elem_of_here|].
    unfold paintedBy in Hnone. rewrite Hkey in Hnone.
    destruct (elementOf σ l) as [el'|]; [|done].
    case_decide; [done|congruence].
  - apply IH; [|done|done]. intros y Hy. apply Hkeys.
    by apply list_elem_of_further.
Qed.

(** The pass, exactly: the nodes and the containers stay, and the styles are
    those written with the hues the closure gives when the pass is over.
    Every key of the pass is then settled in the closure. *)
Lemma forEachM_paintNode_exact this (ls : list ref) : ∀ σ h,
  (∀ l, l ∈ ls → is_Some (nodes σ !! l) ∧ ∃ key, hueKeyOf this σ l = Ok key) →
  ∃ h',
    forEachM (paintNode this) ls (σ, h)
    = Ok ({| nodes := nodes σ; containers := containers σ;
             styles := paintAll this σ (λ k, (callHasher k h').1) ls
                         (styles σ) |}, h') ∧
    hasherLe h h' ∧
    (∀ l key, l ∈ ls → hueKeyOf this σ l = Ok key →
              (callHasher key h').2 = h').
Proof.
  induction ls as [|l ls IH]; intros σ h Hv.
  - exists h. split; [by destruct σ|]. split; [apply hasherLe_refl|].
    intros l key Hl. by apply not_elem_of_nil in Hl.
  - destruct (Hv l) as [[n Hn] [kl Hkl]]; [apply list_elem_of_here|].
    cbn [forEachM]. rewrite (paintNode_spec this σ h l kl n Hkl Hn).
    cbn [mbind Result_bind].
    set (σ1 := match domElement n with
               | Some el => setStyle σ el (colorsOf (callHasher kl h).1)
               | None => σ
               end).
    assert (nodes σ1 = nodes σ) as Hn1 by (subst σ1; by destruct (domElement n)).
    assert (containers σ1 = containers σ) as Hc1
      by (subst σ1; by destruct (domElement n)).
    assert (∀ x, hueKeyOf this σ1 x = hueKeyOf this σ x) as Hk1.
    { intros x. apply hueKeyOf_ext; [done|by rewrite Hn1]. }
    destruct (IH σ1 (callHasher kl h).2) as (h' & Hrun & Hle & Hsettled).
    { intros x Hx. rewrite Hn1, Hk1. apply Hv. by apply list_elem_of_further. }
    exists h'. rewrite Hrun. split; [|split].
    + f_equal. f_equal. rewrite Hn1, Hc1. f_equal.
      rewrite (paintAll_ext this this σ σ1) by done.
      unfold paintAll at 2. cbn [foldl]. fold (paintAll this σ).
      f_equal. unfold paintedBy, elementOf. rewrite Hn, Hkl. simpl.
      rewrite (callHasher_stable kl h h' Hle).
      subst σ1. by destruct (domElement n).
    + eapply hasherLe_trans; [apply callHasher_le|done].
    + intros x key [->|Hx]%elem_of_cons Hkey.
      * assert (key = kl) as -> by congruence.
        eapply callHasher_settled_le; [apply callHasher_settled|done].
      * apply (Hsettled x); [done|by rewrite Hk1].
Qed.

(** A pass with a closure in which the keys are settled leaves the closure
    as it is. *)
Lemma forEachM_paintNode_settled this (ls : list ref) h : ∀ σ,
  (∀ l, l ∈ ls → is_Some (nodes σ !! l) ∧ ∃ key, hueKeyOf this σ l = Ok key) →
  (∀ l key, l ∈ ls → hueKeyOf this σ l = Ok key → (callHasher key h).2 = h) →
  forEachM (paintNode this) ls (σ, h)
  = Ok ({| nodes := nodes σ; containers := containers σ;
           styles := paintAll this σ (λ k, (callHasher k h).1) ls (styles σ) |},
        h).
Proof.
  induction ls as [|l ls IH]; intros σ Hv Hs; [by destruct σ|].
  destruct (Hv l) as [[n Hn] [kl Hkl]]; [apply list_elem_of_here|].
  cbn [forEachM]. rewrite (paintNode_spec this σ h l kl n Hkl Hn).
  cbn [mbind Result_bind].
  rewrite (Hs l kl (list_elem_of_here _ _) Hkl).
  set (σ1 := match domElement n with
             | Some el => setStyle σ el (colorsOf (callHasher kl h).1)
             | None => σ
             end).
  assert (nodes σ1 = nodes σ) as Hn1 by (subst σ1; by destruct (domElement n)).
  assert (containers σ1 = containers σ) as Hc1
    by (subst σ1; by destruct (domElement n)).
  assert (∀ x, hueKeyOf this σ1 x = hueKeyOf this σ x) as Hk1.
  { intros x. apply hueKeyOf_ext; [done|by rewrite Hn1]. }
  rewrite IH.
  - f_equal. f_equal. rewrite Hn1, Hc1. f_equal.
    rewrite (paintAll_ext this this σ σ1) by done.
    unfold paintAll at 2. cbn [foldl]. fold (paintAll this σ).
    f_equal. unfold paintedBy, elementOf. rewrite Hn, Hkl. simpl.
    subst σ1. by destruct (domElement n).
  - intros x Hx. rewrite Hn1, Hk1. apply Hv. by apply list_elem_of_further.
  - intros x key Hx Hkey. apply (Hs x); [by apply list_elem_of_further|].
    by rewrite <- Hk1.
Qed.

(** X8.  A pass of [updateColors] changes styles only: the nodes, the
    containers and every field of the viewer but the closure stay, and the
    closure keeps its palette.  The style of an element that no node of the
    tree has is not touched; the style of an element of the tree is the
    colour of the hue key of a node that has it.  A style that was written
    has black text, and its background is white or the colour of a hue of
    the palette at saturation 60 and lightness 90: the pass never writes
    white text. *)
Theorem updateColors_frame (fuel : nat) this σ (root : ref) :
  currentRootNode this = Some root →
  isTree fuel (nodes σ) root = true →
  (∀ l, l ∈ preorder fuel (nodes σ) root → ∃ key, hueKeyOf this σ l = Ok key) →
  ∃ σ' this',
    updateColors fuel this σ = Ok (σ', this') ∧
    nodes σ' = nodes σ ∧ containers σ' = containers σ ∧
    nodeToRootNodeMap this' = nodeToRootNodeMap this ∧
    rootNodesByGroup this' = rootNodesByGroup this ∧
    currentRootNode this' = Some root ∧
    documentUrl this' = documentUrl this ∧
    palette (getHue this') = palette (getHue this) ∧
    (∀ el, (∀ l, l ∈ preorder fuel (nodes σ) root → elementOf σ l ≠ Some el) →
           styles σ' !! el = styles σ !! el) ∧
    (∀ el, (∃ l, l ∈ preorder fuel (nodes σ) root ∧ elementOf σ l = Some el) →
           ∃ l key, l ∈ preorder fuel (nodes σ) root ∧
                    elementOf σ l = Some el ∧ hueKeyOf this σ l = Ok key ∧
                    styles σ' !! el
                    = Some (colorsOf (callHasher key (getHue this')).1)) ∧
    (∀ el style, styles σ' !! el = Some style →
       styles σ !! el = Some style ∨
       (color style = keyword "black" ∧
        (backgroundColor style = keyword "white" ∨
         ∃ hue, hue ∈ palette (getHue this) ∧
                backgroundColor style = hsl hue 60 90))).
Proof.
  intros Hroot Ht Hkeys.
  destruct (forEachM_paintNode_exact this (preorder fuel (nodes σ) root) σ
              (getHue this)) as (h' & Hrun & Hle & _).
  { intros l Hl. split; [by eapply isTree_preorder_valid|by apply Hkeys]. }
  eexists _, _. split.
  { unfold updateColors. rewrite Hroot.
    rewrite (dfs_preorder _ (paintNode_nodes this)) by done. cbn [fst].
    rewrite Hrun. reflexivity. }
  cbn [fst snd nodes containers styles nodeToRootNodeMap rootNodesByGroup
       currentRootNode documentUrl getHue].
  do 6 (split; [done|]). split; [by destruct Hle|].
  set (ρ := λ k, (callHasher k h').1).
  split; [|split].
  - intros el Hno. rewrite paintAll_lookup.
    destruct (lastWrite _ _ _ el _) as [style|] eqn:Hw; [|done].
    apply lastWrite_Some in Hw as (l & key & Hl & Hel & _).
    by destruct (Hno l Hl).
  - intros el (l & Hl & Hel). rewrite paintAll_lookup.
    destruct (lastWrite _ _ _ el _) as [style|] eqn:Hw.
    + apply lastWrite_Some in Hw as (x & key & Hx & Hxel & Hkey & ->).
      by exists x, key.
    + by destruct (lastWrite_None this σ ρ el _ Hkeys Hw l Hl).
  - intros el style. rewrite paintAll_lookup.
    destruct (lastWrite _ _ _ el _) as [style'|] eqn:Hw; [|by left].
    intros [= <-]. right.
    apply lastWrite_Some in Hw as (x & key & _ & _ & _ & ->).
    subst ρ. cbn beta.
    destruct (callHasher key h').1 as [hue|] eqn:Hhue; simpl.
    + split; [done|]. right. exists hue. split; [|done].
      destruct Hle as [<- _]. by eapply callHasher_palette.
    + split; [done|by left].
Qed.

(** X9.  A second pass changes nothing, neither a style nor the closure: the
    colours are stable.  So a click (the listener runs [updateColors] when
    the target is inside a node of the treemap, and returns otherwise) leaves
    the rendered viewer as it is. *)
Theorem updateColors_again (fuel : nat) (closest : ref → option ref) this σ
    (root : ref) :
  currentRootNode this = Some root →
  isTree fuel (nodes σ) root = true →
  (∀ l, l ∈ preorder fuel (nodes σ) root → ∃ key, hueKeyOf this σ l = Ok key) →
  ∃ σ' this',
    updateColors fuel this σ = Ok (σ', this') ∧
    updateColors fuel this' σ' = Ok (σ', this') ∧
    ∀ e, onClick closest fuel e this' σ' = Ok (σ', this').
Proof.
  intros Hroot Ht Hkeys.
  assert (∀ l, l ∈ preorder fuel (nodes σ) root →
               is_Some (nodes σ !! l) ∧ ∃ key, hueKeyOf this σ l = Ok key)
    as Hvalid.
  { intros l Hl. split; [by eapply isTree_preorder_valid|by apply Hkeys]. }
  destruct (forEachM_paintNode_exact this (preorder fuel (nodes σ) root) σ
              (getHue this) Hvalid) as (h' & Hrun & Hle & Hsettled).
  set (ρ := λ k, (callHasher k h').1) in *.
  set (σ' := {| nodes := nodes σ; containers := containers σ;
                styles := paintAll this σ ρ (preorder fuel (nodes σ) root)
                            (styles σ) |}) in *.
  set (this' := {| nodeToRootNodeMap := nodeToRootNodeMap this;
                   rootNodesByGroup := rootNodesByGroup this;
                   currentRootNode := Some root;
                   documentUrl := documentUrl this;
                   getHue := h' |}).
  assert (updateColors fuel this' σ' = Ok (σ', this')) as Hagain.
  { unfold updateColors. cbn [currentRootNode this'].
    rewrite (dfs_preorder _ (paintNode_nodes this')) by done.
    cbn [fst getHue this' nodes σ'].
    rewrite (forEachM_paintNode_settled this' _ h' σ'); [|done|done].
    cbn [mbind Result_bind fst snd nodes containers styles σ'].
    rewrite (paintAll_ext this this' σ σ') by done.
    fold ρ. by rewrite paintAll_idemp. }
  exists σ', this'. split; [|split; [exact Hagain|]].
  - unfold updateColors. rewrite Hroot.
    rewrite (dfs_preorder _ (paintNode_nodes this)) by done. cbn [fst].
    rewrite Hrun. reflexivity.
  - intros e. unfold onClick. destruct (targetElement e) as [target|]; [|done].
    by destruct (closest target).
Qed.

End ColoursMore.

(** The rendered example: the nodes stay, an element outside the tree gets
    no style, and the element of the root gets black text. *)
Lemma updateColors_frame_witness :
  ∃ σ' this',
    updateColors 4 exampleShownViewer exampleRendered = Ok (σ', this') ∧
    nodes σ' = nodes exampleRendered ∧
    styles σ' !! 200%positive = None ∧
    color <$> styles σ' !! 107%positive = Some (keyword "black").
Proof.
  destruct (updateColors_frame 4 exampleShownViewer exampleRendered 7%positive
              eq_refl eq_refl)
    as (σ' & this' & Hrun & Hnodes & _ & _ & _ & _ & _ & _ & Hkeep & Hin & _).
  { intros l Hl. each_node Hl ltac:(eexists; vm_compute; reflexivity). }
  exists σ', this'. split; [exact Hrun|]. split; [exact Hnodes|]. split.
  - etrans; [apply Hkeep|reflexivity].
    intros l Hl. each_node Hl ltac:(by vm_compute).
  - destruct (Hin 107%positive) as (l & key & _ & _ & _ & Hstyle).
    { exists 7%positive. split; [compute_done|reflexivity]. }
    etrans; [exact (f_equal (fmap color) Hstyle)|].
    simpl. by destruct (callHasher key (getHue this')).1.
Defined.

(** The rendered example: after the first pass, a click inside a node
    changes nothing. *)
Lemma updateColors_again_witness :
  ∃ σ' this',
    updateColors 4 exampleShownViewer exampleRendered = Ok (σ', this') ∧
    onClick (λ el, Some el) 4 {| targetElement := Some 103%positive |} this' σ'
    = Ok (σ', this').
Proof.
  destruct (updateColors_again 4 (λ el, Some el) exampleShownViewer
              exampleRendered 7%positive eq_refl eq_refl)
    as (σ' & this' & Hrun & _ & Hclick).
  { intros l Hl. each_node Hl ltac:(eexists; vm_compute; reflexivity). }
  exists σ', this'. split; [exact Hrun|apply Hclick].
Defined.

(** ** The listener of the later revisions *)

(** X10.  The listener of the later revisions calls [init] on exactly the
    messages on which the first one does, with the same options, and throws
    on the same messages.  It still returns silently on a message that is
    not from the opener; where the first one returned silently on a message
    from the opener (no [lhr], or no [requestedUrl] in it), it shows the
    error text. *)
Theorem onMessage_later_revision (opener : WindowRef) (e : MessageEvent) :
  (∀ options, onMessage' opener e = CallsInit' options ↔
              onMessage opener e = CallsInit options) ∧
  (∀ err, onMessage' opener e = Throws' err ↔ onMessage opener e = Throws err) ∧
  (onMessage' opener e = Returns' ↔ source e ≠ opener) ∧
  (∀ message, onMessage' opener e = ShowsError message ↔
              message = "Error: Invalid options" ∧ source e = opener ∧
              onMessage opener e = Returns).
Proof.
  unfold onMessage', onMessage.
  case_bool_decide as Hs; simpl;
    [destruct (getProp (data e) "lhr") as [lhr|err1];
       [destruct (truthy lhr); simpl;
          [destruct (getProp lhr "requestedUrl") as [url|err2];
             [destruct (truthy url); simpl|]|]|]|];
    repeat split; intros; destruct_and?; congruence.
Qed.

(** A message from the opener whose [lhr] has no [requestedUrl]: ignored by
    the first listener, reported by the later one. *)
Example onMessage_later_revision_reports :
  onMessage (Some 1%nat)
    {| source := Some 1%nat; data := JObj [("lhr", JObj [])] |} = Returns ∧
  onMessage' (Some 1%nat)
    {| source := Some 1%nat; data := JObj [("lhr", JObj [])] |}
  = ShowsError "Error: Invalid options".
Proof. by split. Qed.

(** ** The locales of the i18n bundle *)

Section Locales.

Implicit Types (s pattern replacement : JsString).

Lemma endsWith_true s searchString :
  endsWith s searchString = true ↔ ∃ stem, s = stem ++ searchString.
Proof. unfold endsWith. by rewrite bool_decide_eq_true. Qed.

(** [replace] rewrites the occurrence [indexOf] finds. *)
Lemma stringReplace_indexOf pattern replacement s : ∀ i,
  indexOf pattern s = Some i →
  stringReplace pattern replacement s
  = take i s ++ replacement ++ drop (i + length pattern) s.
Proof.
  induction s as [|c rest IH]; intros i; cbn [indexOf stringReplace].
  - case_decide; [|done]. by intros [= <-].
  - case_decide; [by intros [= <-]|].
    destruct (indexOf pattern rest) as [j|]; [|done]. intros [= <-].
    by rewrite (IH j eq_refl).
Qed.

(** Without an occurrence the string is returned as it is. *)
Lemma stringReplace_none pattern replacement s :
  indexOf pattern s = None → stringReplace pattern replacement s = s.
Proof.
  induction s as [|c rest IH]; cbn [indexOf stringReplace].
  - by case_decide.
  - case_decide; [done|].
    destruct (indexOf pattern rest); [done|]. intros _. by rewrite IH.
Qed.

Lemma stringReplace_extension stem pattern :
  indexOf pattern (stem ++ pattern)
  = Some (length (stem ++ pattern) - length pattern)%nat →
  stringReplace pattern [] (stem ++ pattern) = stem.
Proof.
  intros Hi. rewrite (stringReplace_indexOf _ _ _ _ Hi).
  rewrite length_app, Nat.add_sub, take_app_length.
  rewrite drop_ge by (rewrite length_app; lia). by rewrite app_nil_r.
Qed.

(** X11.  When the first [.json] of every locale file's name (a name that
    ends in [.json] and not in [.ctc.json]) is its extension, the locales the
    bundle announces are exactly the names of the locale modules: [locale]
    is announced if and only if the directory has the file [locale.json] and
    [locale] does not end in [.ctc]. *)
Theorem actualLocales_names_modules (localeBasenames : list JsString) :
  (∀ basename, basename ∈ localeBasenames →
     endsWith basename (units ".json") = true →
     endsWith basename (units ".ctc.json") = false →
     indexOf (units ".json") basename = Some (length basename - 5)%nat) →
  ∀ locale,
    locale ∈ actualLocales localeBasenames ↔
    locale ++ units ".json" ∈ localeBasenames ∧
    endsWith locale (units ".ctc") = false.
Proof.
  intros Hfirst locale. unfold actualLocales.
  change (units "") with (@nil N).
  rewrite list_elem_of_fmap. split.
  - intros (b & -> & [Hb Hin]%list_elem_of_filter).
    apply andb_prop_elim in Hb as [Hjson%Is_true_true Hctc%negb_prop_elim].
    assert (endsWith b (units ".ctc.json") = false) as Hkept
      by (apply not_true_is_false; intros E; by apply Hctc, Is_true_true).
    pose proof (Hfirst b Hin Hjson Hkept) as Hi.
    apply endsWith_true in Hjson as [stem ->].
    rewrite (stringReplace_extension stem (units ".json") Hi).
    split; [done|]. apply not_true_is_false. intros [pre ->]%endsWith_true.
    apply Hctc, Is_true_true, endsWith_true. exists pre.
    by rewrite <- (assoc_L (++)).
  - intros [Hin Hctc]. exists (locale ++ units ".json").
    assert (endsWith (locale ++ units ".json") (units ".json") = true) as Hjson
      by (apply endsWith_true; by exists locale).
    assert (endsWith (locale ++ units ".json") (units ".ctc.json") = false)
      as Hkept.
    { apply not_true_is_false. intros [pre Hpre]%endsWith_true.
      change (units ".ctc.json") with (units ".ctc" ++ units ".json") in Hpre.
      rewrite (assoc_L (++)) in Hpre. apply (inj (.++ _)) in Hpre.
      rewrite Hpre in Hctc. apply not_true_iff_false in Hctc. apply Hctc.
      apply endsWith_true. by exists pre. }
    split.
    + symmetry. apply stringReplace_extension.
      by rewrite (Hfirst _ Hin Hjson Hkept).
    + apply list_elem_of_filter. split; [|done].
      apply andb_prop_intro. split; [by apply Is_true_true|].
      apply negb_prop_intro. rewrite Hkept. exact id.
Qed.

End Locales.

Lemma actualLocales_names_modules_witness :
  units "en-US" ∈ actualLocales exampleBasenames ∧
  units "en-US.ctc" ∉ actualLocales exampleBasenames.
Proof.
  assert (∀ basename, basename ∈ exampleBasenames →
            endsWith basename (units ".json") = true →
            endsWith basename (units ".ctc.json") = false →
            indexOf (units ".json") basename = Some (length basename - 5)%nat)
    as Hfirst.
  { intros b Hb Hjson _.
    each_node Hb ltac:(first [by vm_compute | by vm_compute in Hjson]). }
  pose proof (actualLocales_names_modules exampleBasenames Hfirst) as H.
  split.
  - apply H. split; [compute_done|by vm_compute].
  - intros [_ Hctc]%H. by vm_compute in Hctc.
Defined.

(** [replace] removes the first [.json] of a name, which need not be its
    extension: the locale announced for this file is not the name of a
    module. *)
Example actualLocales_first_occurrence :
  actualLocales [units "a.jsonb.json"] = [units "ab.json"].
Proof. by vm_compute. Qed.

(** ** What show depends on *)

Section ShowSameData.

Context {Hue : Type}.
Implicit Types (σ : @Store Hue) (this : @TreemapViewer Hue).

Lemma sumZ_Permutation (xs ys : list Z) : xs ≡ₚ ys → sumZ xs = sumZ ys.
Proof. induction 1; rewrite ?sumZ_cons; lia. Qed.

Lemma flat_map_Permutation_ext {A B : Type} (f g : A → list B) (xs : list A) :
  (∀ x, x ∈ xs → f x ≡ₚ g x) → flat_map f xs ≡ₚ flat_map g xs.
Proof.
  induction xs as [|x xs IH]; intros Hfg; [done|]. cbn [flat_map].
  apply Permutation_app; [apply Hfg, list_elem_of_here|].
  apply IH. intros y Hy. by apply Hfg, list_elem_of_further.
Qed.

Lemma sameNode_refl (n : Node) : sameNode n n.
Proof. unfold sameNode. by destruct (children n). Qed.

Lemma sameNode_trans (n1 n2 n3 : Node) :
  sameNode n1 n2 → sameNode n2 n3 → sameNode n1 n3.
Proof.
  unfold sameNode. intros (? & ? & ? & H12) (? & ? & ? & H23).
  split_and!; [congruence..|].
  destruct (children n1), (children n2), (children n3); try done.
  by etrans.
Qed.

Lemma sameNode_withoutDom (n : Node) : sameNode n (withoutDom n).
Proof. unfold sameNode. simpl. by destruct (children n). Qed.

Lemma sameData_trans σ1 σ2 σ3 :
  sameData σ1 σ2 → sameData σ2 σ3 → sameData σ1 σ3.
Proof.
  intros [Hc12 H12] [Hc23 H23]. split; [congruence|]. intros x n Hn.
  destruct (H12 x n Hn) as (n2 & Hn2 & Hs12).
  destruct (H23 x n2 Hn2) as (n3 & Hn3 & Hs23).
  exists n3. split; [done|]. by eapply sameNode_trans.
Qed.

Lemma extends_sameData σ σ' : extends σ σ' → sameData σ σ'.
Proof.
  intros Hext. split; [by destruct Hext as (_ & ? & _)|]. intros x n Hn.
  exists n. split; [by eapply extends_lookup|apply sameNode_refl].
Qed.

(** A tree stays a tree, with the same nodes. *)
Lemma sameData_isTree (fuel : nat) σ σ' : sameData σ σ' → ∀ l,
  isTree fuel (nodes σ) l = true →
  isTree fuel (nodes σ') l = true ∧
  preorder fuel (nodes σ') l ≡ₚ preorder fuel (nodes σ) l.
Proof.
  intros [_ Hsame]. induction fuel as [|fuel IH]; intros l; [done|].
  cbn [isTree preorder]. destruct (nodes σ !! l) as [n|] eqn:Hn; [|done].
  destruct (Hsame l n Hn) as (n' & -> & _ & _ & _ & Hch).
  destruct (children n) as [cs|], (children n') as [cs'|]; try done.
  intros Hcs. rewrite forallb_forall in Hcs.
  assert (∀ c, c ∈ cs → isTree fuel (nodes σ') c = true ∧
                        preorder fuel (nodes σ') c ≡ₚ preorder fuel (nodes σ) c)
    as Hc.
  { intros c Hc. apply IH, Hcs. by apply list_elem_of_In. }
  split.
  - apply forallb_forall. intros c Hc'%list_elem_of_In. apply Hc.
    by rewrite Hch.
  - constructor. rewrite <- Hch. apply flat_map_Permutation_ext.
    intros c Hc'. by apply Hc.
Qed.

Lemma sameData_holdsTree_one (fuel : nat) σ σ' (rootNode : ref) :
  sameData σ σ' → holdsTree fuel σ rootNode = true →
  holdsTree fuel σ' rootNode = true ∧
  nodesOfRootNode fuel σ' rootNode ≡ₚ nodesOfRootNode fuel σ rootNode.
Proof.
  intros Hsame. unfold holdsTree, nodesOfRootNode. rewrite (proj1 Hsame).
  destruct (containers σ !! rootNode) as [c|]; [|done].
  apply sameData_isTree, Hsame.
Qed.

Lemma sameData_holdsTree (fuel : nat) σ σ' (rootNodes : list ref) :
  sameData σ σ' → forallb (holdsTree fuel σ) rootNodes = true →
  forallb (holdsTree fuel σ') rootNodes = true ∧
  allNodes fuel σ' rootNodes ≡ₚ allNodes fuel σ rootNodes.
Proof.
  intros Hsame. unfold allNodes.
  induction rootNodes as [|r rest IH]; intros Hts; [done|].
  cbn [forallb flat_map] in *. apply andb_true_iff in Hts as [Hr Hrest].
  destruct (IH Hrest) as [-> Hperm].
  destruct (sameData_holdsTree_one fuel σ σ' r Hsame Hr) as [-> Hp].
  split; [done|]. by apply Permutation_app.
Qed.

Lemma sameData_leafBytesAt σ σ' (x : ref) :
  sameData σ σ' → is_Some (nodes σ !! x) →
  leafBytesAt (nodes σ') x = leafBytesAt (nodes σ) x.
Proof.
  intros [_ Hsame] [n Hn]. unfold leafBytesAt.
  destruct (Hsame x n Hn) as (n' & -> & _ & Hrb & _ & Hch). rewrite Hn.
  by destruct (children n), (children n').
Qed.

(** The byte counts of the leaves are those of the data, up to their
    order. *)
Lemma sameData_leafBytes (fuel : nat) σ σ' (rootNodes : list ref) :
  sameData σ σ' → forallb (holdsTree fuel σ) rootNodes = true →
  leafBytesAt (nodes σ') <$> allNodes fuel σ' rootNodes
  ≡ₚ leafBytesAt (nodes σ) <$> allNodes fuel σ rootNodes.
Proof.
  intros Hsame Hts.
  destruct (sameData_holdsTree fuel σ σ' rootNodes Hsame Hts) as [_ Hperm].
  rewrite (fmap_Permutation _ _ _ Hperm).
  assert (leafBytesAt (nodes σ') <$> allNodes fuel σ rootNodes
          = leafBytesAt (nodes σ) <$> allNodes fuel σ rootNodes) as ->; [|done].
  apply list_fmap_ext. intros i x Hx. apply sameData_leafBytesAt; [done|].
  eapply allNodes_valid; [done|]. by eapply list_elem_of_lookup_2.
Qed.

(** The exact range is one of the byte counts, not of their order. *)
Lemma safeBytes_Permutation (xs ys : list Z) :
  xs ≡ₚ ys → safeBytes xs → safeBytes ys.
Proof.
  intros Hperm [Hpos Hle]. split.
  - by rewrite <- Hperm.
  - by rewrite <- (sumZ_Permutation _ _ Hperm).
Qed.

(** In the exact range the byte count of the view mode is that of the
    data. *)
Lemma sameData_leafTotal (fuel : nat) σ σ' (rootNodes : list ref) :
  sameData σ σ' → forallb (holdsTree fuel σ) rootNodes = true →
  safeBytes (leafBytesAt (nodes σ) <$> allNodes fuel σ rootNodes) →
  leafTotalFrom (nodes σ') 0 (allNodes fuel σ' rootNodes)
  = leafTotalFrom (nodes σ) 0 (allNodes fuel σ rootNodes).
Proof.
  intros Hsame Hts Hsafe.
  pose proof (sameData_leafBytes fuel σ σ' rootNodes Hsame Hts) as Hperm.
  rewrite !leafTotal_exact;
    [by apply sumZ_Permutation|done
    |by eapply safeBytes_Permutation; [symmetry; exact Hperm|]].
Qed.

Lemma sameData_rootNodes σ σ' (rootNodes : list ref) : ∀ ns : list Node,
  sameData σ σ' → mapM (rootNodeOf σ) rootNodes = Some ns →
  ∃ ns' : list Node, mapM (rootNodeOf σ') rootNodes = Some ns' ∧
         resourceBytes <$> ns' = resourceBytes <$> ns ∧
         (λ n, default 0 (unusedBytes n)) <$> ns'
         = (λ n, default 0 (unusedBytes n)) <$> ns.
Proof.
  intros ns [Hc Hsame] Hns%mapM_Some. induction Hns as [|r n rs ns Hr _ IH].
  { by exists []. }
  destruct IH as (ns' & Hns' & Hrb & Hub).
  apply rootNodeOf_Some in Hr as (c & Hcr & Hn).
  destruct (Hsame _ n Hn) as (n' & Hn' & _ & Hrb' & Hub' & _).
  exists (n' :: ns'). split; [|split].
  - apply mapM_Some. constructor; [|by apply mapM_Some].
    apply rootNodeOf_Some. exists c. by rewrite Hc.
  - rewrite !fmap_cons. congruence.
  - rewrite !fmap_cons. congruence.
Qed.

(** What [show] displays, and what it leaves. *)
Lemma show_data_result (fuel : nat) this (sizes0 : gmap ref Z) σ
    (rootNodes : list ref) (ns : list Node) :
  lookupGroup "scripts" (rootNodesByGroup this) = Some rootNodes →
  forallb (holdsTree fuel σ) rootNodes = true →
  mapM (rootNodeOf σ) rootNodes = Some ns →
  ∃ sh root r,
    show_data (S (S fuel)) this sizes0 σ = Ok sh ∧
    viewModes sh
    = [("All", leafTotalFrom (nodes σ) 0 (allNodes fuel σ rootNodes))] ∧
    currentRootNode (shownViewer sh) = Some root ∧
    nodes (shownStore sh) !! root = Some r ∧
    name r = documentUrl this ∧
    resourceBytes r = jsSum (resourceBytes <$> ns) ∧
    unusedBytes r = Some (jsSum ((λ n, default 0 (unusedBytes n)) <$> ns)) ∧
    sameData σ (shownStore sh).
Proof.
  intros Hg Hts Hns.
  destruct (createRootNodeForGroup_spec this σ rootNodes ns Hg Hns)
    as (root & σ1 & cs & Hcall & Hext & _ & Hroot & Hcs).
  destruct (root_isTree fuel σ σ1 rootNodes cs root _ Hts Hext Hcs Hroot eq_refl)
    as [Ht Hvisited].
  destruct (forEachM_prepareNode (preorder (S (S fuel)) (nodes σ1) root) σ1
              sizes0) as (σ2 & sz & Hrun & Hc2 & _ & Hx).
  { intros l Hl. by eapply isTree_preorder_valid. }
  assert (root ∈ preorder (S (S fuel)) (nodes σ1) root) as Hin
    by (apply Hvisited; by left).
  destruct (Hx root) as [Hr2 _]. rewrite decide_True in Hr2 by done.
  rewrite Hroot in Hr2.
  eexists _, root, _. split; [by eapply show_data_run|].
  cbn [viewModes shownViewer shownStore currentRootNode].
  split; [done|]. split; [done|]. split; [exact Hr2|]. do 3 (split; [done|]).
  eapply sameData_trans; [by apply extends_sameData|].
  split; [done|]. intros x n Hn. rewrite (proj1 (Hx x)), Hn.
  case_decide; eexists; (split; [reflexivity|]);
    [apply sameNode_withoutDom|apply sameNode_refl].
Qed.

(** X12.  What [show] displays depends on the data only.  For a store that
    has the containers and every node of another, with the same names and
    byte counts and the same children up to their order (dom elements may
    be attached or not, and there may be more objects), [show] makes a root
    with the same name and byte counts and, when the byte counts of the
    leaves are non-negative integers with a total of at most 2^53 (so that
    the additions are exact whatever their order), the same view modes.  The
    store that [show] leaves is such a store again: so showing again, as the
    click on the view mode does once webtreemap has sorted and rendered the
    tree, displays the same numbers. *)
Theorem show_data_same_data (fuel : nat) this this' (sizes0 sizes0' : gmap ref Z)
    σ σ' (rootNodes : list ref) :
  lookupGroup "scripts" (rootNodesByGroup this) = Some rootNodes →
  rootNodesByGroup this' = rootNodesByGroup this →
  documentUrl this' = documentUrl this →
  forallb (holdsTree fuel σ) rootNodes = true →
  sameData σ σ' →
  safeBytes (leafBytesAt (nodes σ) <$> allNodes fuel σ rootNodes) →
  ∃ sh sh' root root' r r',
    show_data (S (S fuel)) this sizes0 σ = Ok sh ∧
    show_data (S (S fuel)) this' sizes0' σ' = Ok sh' ∧
    viewModes sh' = viewModes sh ∧
    currentRootNode (shownViewer sh) = Some root ∧
    nodes (shownStore sh) !! root = Some r ∧
    currentRootNode (shownViewer sh') = Some root' ∧
    nodes (shownStore sh') !! root' = Some r' ∧
    name r' = name r ∧ resourceBytes r' = resourceBytes r ∧
    unusedBytes r' = unusedBytes r ∧
    sameData σ (shownStore sh) ∧ sameData σ (shownStore sh') ∧
    forallb (holdsTree fuel (shownStore sh')) rootNodes = true.
Proof.
  intros Hg Hgroups Hurl Hts Hsame Hsafe.
  destruct (holdsTree_rootNodes fuel σ rootNodes Hts) as [ns Hns].
  destruct (sameData_rootNodes σ σ' rootNodes ns Hsame Hns)
    as (ns' & Hns' & Hrb & Hub).
  destruct (sameData_holdsTree fuel σ σ' rootNodes Hsame Hts) as [Hts' _].
  destruct (show_data_result fuel this sizes0 σ rootNodes ns Hg Hts Hns)
    as (sh & root & r & Hshow & Hmodes & Hcur & Hroot & Hname & Hbytes
        & Hunused & Hleft).
  destruct (show_data_result fuel this' sizes0' σ' rootNodes ns')
    as (sh' & root' & r' & Hshow' & Hmodes' & Hcur' & Hroot' & Hname' & Hbytes'
        & Hunused' & Hleft'); [by rewrite Hgroups|done|done|].
  pose proof (sameData_trans _ _ _ Hsame Hleft') as Hleft''.
  exists sh, sh', root, root', r, r'.
  split; [done|]. split; [done|].
  split; [by rewrite Hmodes, Hmodes', (sameData_leafTotal fuel σ σ')|].
  do 4 (split; [done|]).
  split; [congruence|]. split; [congruence|]. split; [congruence|].
  split; [done|]. split; [done|].
  by apply (sameData_holdsTree fuel σ (shownStore sh') rootNodes).
Qed.

End ShowSameData.

(** The example and the example as rendered: the same view modes, 35 bytes,
    and a root of 35 bytes each time. *)
Lemma show_data_same_data_witness :
  ∃ (sh sh' : @Shown nat) root' r',
    show_data 4 exampleViewer ∅ exampleStore = Ok sh ∧
    show_data 4 exampleViewer ∅ exampleRendered = Ok sh' ∧
    viewModes sh' = viewModes sh ∧
    currentRootNode (shownViewer sh') = Some root' ∧
    nodes (shownStore sh') !! root' = Some r' ∧ resourceBytes r' = 35.
Proof.
  assert (sameData exampleStore exampleRendered) as Hsame.
  { split; [reflexivity|]. intros x n Hx.
    apply elem_of_map_to_list in Hx. vm_compute in Hx.
    repeat (apply elem_of_cons in Hx as [Hx|Hx];
            [injection Hx as -> ->; eexists; split; [reflexivity|];
             unfold sameNode; simpl; by split_and!|]).
    by apply not_elem_of_nil in Hx. }
  destruct (show_data_same_data 2 exampleViewer exampleViewer ∅ ∅ exampleStore
              exampleRendered exampleRootNodes eq_refl eq_refl eq_refl eq_refl
              Hsame ltac:(safe_bytes))
    as (sh & sh' & root & root' & r & r' & Hshow & Hshow' & Hmodes & Hcur
        & Hroot & Hcur' & Hroot' & _ & Hbytes & _).
  exists sh, sh', root', r'. split_and!; [done..|].
  rewrite Hbytes. vm_compute in Hshow. injection Hshow as <-.
  injection Hcur as <-. vm_compute in Hroot. by injection Hroot as <-.
Defined.
